
(** * Weighted random sampling with replacement (dollar-unit sampling notebook)

    A shallow embedding of [weightedRandomSample] from the dollar-unit
    sampling notebook, of the notebook cell that calls it, and of the parts
    of NumPy they use.

    Arithmetic model.  The function computes in IEEE 754 binary64.  A double
    is modelled by its value: a rational ([Fin q]) or one of the special
    values [PInf], [NInf], [NaN]; the two zeros are not distinguished.  Every
    arithmetic operation is the exact operation on rationals followed by
    [round53], rounding to the nearest double with ties to even, gradual
    underflow and overflow to infinity.  [np.cumsum] adds from left to right;
    [np.sum] adds pairwise, in the order NumPy's reduction uses on a
    contiguous float64 array.  The weights are given by their values, which
    are finite; a value that is no double (an integer beyond 2^53) is
    converted first ([cast]).  An array of another dtype that is longer than
    one casting buffer (8192 items) is reduced by NumPy buffer by buffer; the
    general results on sums below are proved through the relation [sums],
    which holds of the additions in any order and any grouping, and so do
    not depend on that order.  Memory is taken as unbounded.

    Effects.  The function reads the process-wide NumPy generator and writes
    to standard output; both live in an explicit [World] that is threaded
    through the call.  A Python exception is an [outcome] of its own. *)

From Stdlib Require Import String QArith ZArith List Lia Bool.
From Stdlib Require Import Qround Qfield Qpower Lqa Permutation.
Import ListNotations.

Open Scope Q_scope.

(** ** The NumPy operations used by the notebook *)

Module NumPy.

(** A double as the model sees it: a finite value or an IEEE special. *)
Inductive float64 : Type :=
| Fin (q : Q)
| PInf
| NInf
| NaN.

(** Strict comparison of finite values, as a boolean. *)
Definition Qltb (x y : Q) : bool := negb (Qle_bool y x).

(** *** Rounding to binary64 *)

(** The exponent of the smallest normal double. *)
Definition emin : Z := -1022.

(** [floor (log2 q)] for a positive rational [q]. *)
Definition ilog2 (q : Q) : Z :=
  let e0 := (Z.log2 (Qnum q) - Z.log2 (Z.pos (Qden q)))%Z in
  if Qle_bool (2 ^ e0) q then e0 else (e0 - 1)%Z.

(** The integer nearest to [s], the even one of the two when [s] lies half
    way. *)
Definition round_half_even (s : Q) : Z :=
  let f := Qfloor s in
  match Qcompare (s - inject_Z f) (1 # 2) with
  | Lt => f
  | Gt => (f + 1)%Z
  | Eq => if Z.even f then f else (f + 1)%Z
  end.

(** A positive rational rounded to 53 significant bits, with the exponent
    held at [emin] below the normal range and unbounded above. *)
Definition rnd_val (q : Q) : Q :=
  let e := Z.max (ilog2 q) emin in
  inject_Z (round_half_even (q * 2 ^ (52 - e))) * 2 ^ (e - 52).

(** Rounding a positive rational: what reaches [2^1024] overflows. *)
Definition round_pos (q : Q) : float64 :=
  let v := rnd_val q in
  if Qle_bool (2 ^ 1024) v then PInf else Fin (Qred v).

Definition fneg (x : float64) : float64 :=
  match x with
  | Fin q => Fin (Qred (- q))
  | PInf => NInf
  | NInf => PInf
  | NaN => NaN
  end.

(** The double nearest to a rational. *)
Definition round53 (q : Q) : float64 :=
  match Qcompare q 0 with
  | Eq => Fin 0
  | Gt => round_pos q
  | Lt => fneg (round_pos (- q))
  end.

(** The conversion of an array element to [dtype=float]. *)
Definition cast (x : Q) : float64 := round53 x.

(** Addition of doubles. *)
Definition fadd (x y : float64) : float64 :=
  match x, y with
  | NaN, _ | _, NaN => NaN
  | PInf, NInf | NInf, PInf => NaN
  | PInf, _ | _, PInf => PInf
  | NInf, _ | _, NInf => NInf
  | Fin a, Fin b => round53 (a + b)
  end.

(** Division of doubles.  NumPy does not raise on a zero divisor: it yields
    [nan] for [0/0] and a signed infinity otherwise. *)
Definition divide (x y : float64) : float64 :=
  match x, y with
  | NaN, _ | _, NaN => NaN
  | (PInf | NInf), (PInf | NInf) => NaN
  | PInf, Fin b => if Qle_bool 0 b then PInf else NInf
  | NInf, Fin b => if Qle_bool 0 b then NInf else PInf
  | Fin _, (PInf | NInf) => Fin 0
  | Fin a, Fin b =>
      if Qeq_bool b 0 then
        match Qcompare a 0 with
        | Eq => NaN
        | Gt => PInf
        | Lt => NInf
        end
      else round53 (a / b)
  end.

(** *** Sums *)

(** [np.cumsum(a, dtype=float)]: the first element, then running sums from
    left to right, each addition rounded. *)
Fixpoint cumsum_from (acc : float64) (a : list Q) : list float64 :=
  match a with
  | [] => []
  | x :: a' => fadd acc (cast x) :: cumsum_from (fadd acc (cast x)) a'
  end.

Definition cumsum (a : list Q) : list float64 :=
  match a with
  | [] => []
  | x :: a' => cast x :: cumsum_from (cast x) a'
  end.

(** [res += a[i]] over the elements of [a], in order. *)
Definition add_seq (res : float64) (a : list float64) : float64 :=
  fold_left fadd a res.

(** [r[j] += a[i + j]] for the elements of one block. *)
Fixpoint zip_add (r block : list float64) : list float64 :=
  match r with
  | [] => []
  | x :: r' =>
      match block with
      | [] => r
      | y :: block' => fadd x y :: zip_add r' block'
      end
  end.

(** The unrolled loop of the pairwise sum: [k] blocks of eight elements are
    added to the eight accumulators. *)
Fixpoint add_blocks (k : nat) (r a : list float64) : list float64 :=
  match k with
  | O => r
  | S k' => add_blocks k' (zip_add r (firstn 8 a)) (skipn 8 a)
  end.

(** [((r0 + r1) + (r2 + r3)) + ((r4 + r5) + (r6 + r7))] *)
Definition tree8 (r : list float64) : float64 :=
  match r with
  | [r0; r1; r2; r3; r4; r5; r6; r7] =>
      fadd (fadd (fadd r0 r1) (fadd r2 r3)) (fadd (fadd r4 r5) (fadd r6 r7))
  | _ => NaN
  end.

(** The pairwise sum of a block of 8 to 128 elements: eight accumulators over
    the multiples of eight, reduced as a tree, then the remaining elements
    one by one. *)
Definition pairwise_block (a : list float64) : float64 :=
  let n := length a in
  let full := (n - n mod 8)%nat in
  let r := add_blocks (full / 8 - 1) (firstn 8 a) (skipn 8 a) in
  add_seq (tree8 r) (skipn full a).

(** NumPy's pairwise summation: a plain loop below 8 elements, the unrolled
    block up to 128, and above that the two halves, the first cut at a
    multiple of eight.  [fuel] bounds the depth of the recursion. *)
Fixpoint pairwise_sum (fuel : nat) (a : list float64) : float64 :=
  let n := length a in
  if (n <? 8)%nat then add_seq (Fin 0) a
  else if (n <=? 128)%nat then pairwise_block a
  else
    match fuel with
    | O => add_seq (Fin 0) a
    | S fuel' =>
        let n2 := (n / 2 - (n / 2) mod 8)%nat in
        fadd (pairwise_sum fuel' (firstn n2 a))
             (pairwise_sum fuel' (skipn n2 a))
    end.

(** [np.sum(a, dtype=float)] on a contiguous float64 array: the reduction
    starts from the identity 0 and adds the pairwise sum of the elements. *)
Definition sum (a : list Q) : float64 :=
  fadd (Fin 0) (pairwise_sum (length a) (map cast a)).

(** *** Searching *)

(** The order NumPy sorts and searches doubles with: the usual [<], with
    [nan] placed after every other value. *)
Definition less (a b : float64) : bool :=
  match a, b with
  | NaN, _ => false
  | _, NaN => true
  | PInf, _ => false
  | _, PInf => true
  | NInf, NInf => false
  | NInf, Fin _ => true
  | Fin _, NInf => false
  | Fin x, Fin y => Qltb x y
  end.

(** The binary search behind [ndarray.searchsorted] with its default
    [side='left'].  [fuel] bounds the number of halvings. *)
Fixpoint binsearch_left (fuel : nat) (arr : list float64) (key : float64)
         (min_idx max_idx : nat) : nat :=
  match fuel with
  | O => min_idx
  | S fuel' =>
      if (min_idx <? max_idx)%nat then
        let mid_idx := (min_idx + (max_idx - min_idx) / 2)%nat in
        let mid_val := nth mid_idx arr NaN in
        if less mid_val key
        then binsearch_left fuel' arr key (mid_idx + 1) max_idx
        else binsearch_left fuel' arr key min_idx mid_idx
      else min_idx
  end.

(** [arr.searchsorted(keys)]: one insertion point per key. *)
Definition searchsorted (arr : list float64) (keys : list float64) : list nat :=
  map (fun key => binsearch_left (length arr) arr key 0 (length arr)) keys.

End NumPy.

Import NumPy.
(** ** The world the function runs in *)

(** The process-wide generator is a stream of uniform values with a cursor;
    standard output is the list of lines printed so far. *)
Record World : Type := mkWorld {
  rng_stream : nat -> Q;
  rng_pos : nat;
  stdout : list string
}.

Inductive exn : Type :=
| ValueError (msg : string).

(** What the caller gets back from [weightedRandomSample]. *)
Inductive value : Type :=
| VNaN                                          (* float('NaN') *)
| VSample (indices : list nat) (theSam : list Q). (* the pair of arrays *)

Inductive outcome : Type :=
| Return (v : value)
| Raise (e : exn).

(** The next [k] values the generator will hand out. *)
Definition draws (k : nat) (w : World) : list Q :=
  map (rng_stream w) (seq (rng_pos w) k).

(** [np.random.random_sample((n,))]: [n] fresh uniform values; a negative
    shape is refused before the generator is touched.  Memory is taken as
    unbounded: the refusal of a shape beyond NumPy's array-size limit is not
    modelled. *)
Definition random_sample (n : Z) (w : World) : (exn + list Q) * World :=
  if (n <? 0)%Z then
    (inl (ValueError "negative dimensions are not allowed"), w)
  else
    (inr (draws (Z.to_nat n) w),
     mkWorld (rng_stream w) (rng_pos w + Z.to_nat n) (stdout w)).

(** The [print] statement. *)
Definition print (line : string) (w : World) : World :=
  mkWorld (rng_stream w) (rng_pos w) (stdout w ++ [line]).

(** Python's [any] over the element-wise comparison [weights < 0]. *)
Definition any (bs : list bool) : bool := existsb (fun b => b) bs.

Definition weights_lt_0 (weights : list Q) : list bool :=
  map (fun x => Qltb x 0) weights.

(** ** The sampler *)

(** [wc = np.cumsum(weights, dtype=float)/np.sum(weights, dtype=float)] *)
Definition cumulative_weights (weights : list Q) : list float64 :=
  map (fun c => divide c (sum weights)) (cumsum weights).

Definition weightedRandomSample (n : Z) (weights : list Q) (w : World)
  : outcome * World :=
  if any (weights_lt_0 weights) then
    (Return VNaN, print "negative weight in weightedRandomSample" w)
  else
    let wc := cumulative_weights weights in
    match random_sample n w with
    | (inl e, w') => (Raise e, w')
    | (inr theSam, w') =>
        (Return (VSample (searchsorted wc (map Fin theSam)) theSam), w')
    end.

(** Projections used to state results. *)
Definition raised (o : outcome) : bool :=
  match o with Raise _ => true | Return _ => false end.

Definition sample_indices (o : outcome) : option (list nat) :=
  match o with
  | Return (VSample indices _) => Some indices
  | _ => None
  end.

Definition sample_uniforms (o : outcome) : option (list Q) :=
  match o with
  | Return (VSample _ theSam) => Some theSam
  | _ => None
  end.

(** ** Vocabulary for the statements *)

(** The value of the double nearest to [q] (0 if it overflows): what a
    Python float literal denotes. *)
Definition dbl (q : Q) : Q :=
  match round53 q with
  | Fin r => r
  | _ => 0
  end.

(** A valid population: at least one item, no negative weight, and some
    strictly positive weight. *)
Definition valid_weights (weights : list Q) : Prop :=
  (1 <= length weights)%nat /\
  Forall (fun x => 0 <= x) weights /\
  Exists (fun x => 0 < x) weights.

(** A sequence of rationals that never decreases. *)
Definition nondecreasing (qs : list Q) : Prop :=
  forall i j, (i <= j < length qs)%nat -> nth i qs 0 <= nth j qs 0.

(** The index [searchsorted] computes for a single draw [t]. *)
Definition draw_index (weights : list Q) (t : Q) : nat :=
  let wc := cumulative_weights weights in
  binsearch_left (length wc) wc (Fin t) 0 (length wc).

(** The entry of [arr] at position [i] sorts strictly before [key]. *)
Definition before_key (arr : list float64) (key : float64) (i : nat) : bool :=
  less (nth i arr NaN) key.

(** Equality of doubles up to the equality of rationals. *)
Definition float64_eq (a b : float64) : Prop :=
  match a, b with
  | Fin x, Fin y => x == y
  | PInf, PInf | NInf, NInf | NaN, NaN => True
  | _, _ => False
  end.




(** [i] is the smallest position whose entry equals [t], provided some entry
    does. *)
Definition smallest_tie (wc : list float64) (i : nat) (t : Q) : Prop :=
  forall j c, nth_error wc j = Some (Fin c) -> c == t ->
              (i <= j)%nat /\
              exists c', nth_error wc i = Some (Fin c') /\ c' == t.

(** [a] does not sort after [b], in the order of [less] ([nan] last). *)
Definition fle (a b : float64) : Prop := less b a = false.

(** [q] is the value of a double: rounding leaves it unchanged. *)
Definition is_double (q : Q) : Prop := float64_eq (round53 q) (Fin q).

(** A double that is zero, positive or [+inf]. *)
Definition fnonneg (x : float64) : Prop :=
  match x with
  | Fin q => 0 <= q /\ is_double q
  | PInf => True
  | _ => False
  end.

(** [v] is the result of adding the doubles of [l] with [fadd], in some
    order and some grouping, starting from nothing or from a zero. *)
Inductive sums : list float64 -> float64 -> Prop :=
| sums_nil : sums [] (Fin 0)
| sums_one (x : float64) : sums [x] x
| sums_add (l1 l2 : list float64) (v1 v2 : float64) :
    sums l1 v1 -> sums l2 v2 -> sums (l1 ++ l2) (fadd v1 v2)
| sums_perm (l l' : list float64) (v : float64) :
    Permutation l l' -> sums l v -> sums l' v.

(** A sequence of doubles in the order of [less]. *)
Definition fsorted (l : list float64) : Prop :=
  forall i j, (i <= j < length l)%nat -> fle (nth i l NaN) (nth j l NaN).



(** Half a unit in the last place, relative to the value. *)
Definition eps : Q := 2 ^ (-53).

(** The value of a finite double, and the sum of a list of doubles in exact
    arithmetic. *)
Definition fvalue (x : float64) : Q :=
  match x with
  | Fin q => q
  | _ => 0
  end.

Definition exact_total (l : list float64) : Q :=
  fold_right (fun x acc => fvalue x + acc) 0 l.

Definition finite (x : float64) : Prop := exists q, x = Fin q.

(** A double that is finite, and zero or positive. *)
Definition fin_nonneg (x : float64) : Prop :=
  exists q, x = Fin q /\ 0 <= q /\ is_double q.

Definition qlen {A : Type} (l : list A) : Q := inject_Z (Z.of_nat (length l)).

(** [x] and [T] are within [k] half-units in the last place of each other,
    relative to their size. *)
Definition close (k T x : Q) : Prop :=
  T * (1 - k * eps) <= x /\ x * (1 - k * eps) <= T.

(** The tolerance on the last cumulative weight of [N] items. *)
Definition tol (N : nat) : Q := inject_Z (2 * Z.of_nat N + 1) * eps.

(** The sum of the weights in exact arithmetic, and weights that are whole
    numbers. *)
Definition total (weights : list Q) : Q := fold_right Qplus 0 weights.

Definition is_integer (q : Q) : Prop := exists z : Z, q == inject_Z z.

(** Eight items of weight 1.1, and the largest double below 1. *)
Definition w8 : list Q := repeat (dbl 1.1) 8.
Definition top : Q := 1 - 2 ^ (-53).

(** Two weights whose sum overflows. *)
Definition w_huge : list Q := [2 ^ 1023; 2 ^ 1023].

(** A world whose generator will produce the given values next. *)
Definition world_of (values : list Q) : World :=
  mkWorld (fun i => nth i values 0) 0 [].

(** A generator about to produce the doubles 0.05, 0.65 and 0.95. *)
Definition ex_w : World := world_of [dbl 0.05; dbl 0.65; dbl 0.95].

(** A generator about to produce 0 and then 1/2. *)
Definition tie_w : World := world_of [0; 0.5].

(** Closing the side conditions of concrete populations and draws. *)
Ltac valid_weights_tac :=
  split; [vm_compute; lia
         |split; [vm_compute; repeat constructor; discriminate|vm_compute]].

Ltac double_tac := vm_compute; reflexivity.

Ltac doubles_tac :=
  repeat (apply Forall_cons; [double_tac|]); apply Forall_nil.

Ltac in_unit_interval_tac :=
  vm_compute; repeat constructor; try discriminate; try reflexivity.

(** ** The illustration cell

    The notebook cell that calls the sampler: linearly increasing weights,
    one call, the sorted indices printed, and the bin edges handed to
    [ax.hist].  [vals] and [n] are the two variables set at the top of the
    cell.  The figure itself is outside the model: the cell's result is the
    pair of arguments of the [hist] call. *)

(** [np.arange(stop)] on an integer: [0 .. stop-1], empty when [stop <= 0]. *)
Definition arange_int (stop : Z) : list Z :=
  map Z.of_nat (seq 0 (Z.to_nat stop)).

(** [w = np.arange(vals)+1] *)
Definition linear_weights (vals : Z) : list Q :=
  map (fun k => inject_Z (k + 1)) (arange_int vals).

(** [np.sort] on an integer array. *)
Fixpoint insert_sorted (x : nat) (a : list nat) : list nat :=
  match a with
  | [] => [x]
  | y :: a' => if (x <=? y)%nat then x :: a else y :: insert_sorted x a'
  end.

Definition np_sort (a : list nat) : list nat := fold_right insert_sorted [] a.

(** [np.min] and [np.max]: a reduction without identity, refused on an
    empty array. *)
Definition np_min (a : list nat) : exn + nat :=
  match a with
  | [] => inl (ValueError
            "zero-size array to reduction operation minimum which has no identity")
  | x :: a' => inr (fold_left Nat.min a' x)
  end.

Definition np_max (a : list nat) : exn + nat :=
  match a with
  | [] => inl (ValueError
            "zero-size array to reduction operation maximum which has no identity")
  | x :: a' => inr (fold_left Nat.max a' x)
  end.

(** [np.arange(start, stop, 1)] on floats: [ceil((stop - start)/1)] values
    [start + i*1]. *)
Definition arange_step1 (start stop : Q) : list Q :=
  map (fun i => start + inject_Z (Z.of_nat i) * 1)
      (seq 0 (Z.to_nat (Qceiling ((stop - start) / 1)))).

(** An integer of the index array used in float arithmetic. *)
Definition to_float (i : nat) : Q := inject_Z (Z.of_nat i).

(** What can stop the cell: an exception of the call or of NumPy, or the
    failure to unpack a float into [wrs, raw]. *)
Inductive cell_exn : Type :=
| Uncaught (e : exn)
| TypeError (msg : string).

(** The arguments of [ax.hist(wrs, bins=bins)]. *)
Record HistCall : Type := mkHistCall {
  hist_x : list nat;
  hist_bins : list Q
}.

Section Illustration.

(** [str] of an integer array, as [print] renders it. *)
Variable array_str : list nat -> string.

Definition illustration (vals n : Z) (w : World) : (cell_exn + HistCall) * World :=
  let w_ := linear_weights vals in
  match weightedRandomSample n w_ w with
  | (Raise e, w1) => (inl (Uncaught e), w1)
  | (Return VNaN, w1) => (inl (TypeError "'float' object is not iterable"), w1)
  | (Return (VSample wrs raw), w1) =>
      let w2 := print (array_str (np_sort wrs)) w1 in
      match np_min wrs with
      | inl e => (inl (Uncaught e), w2)
      | inr lo =>
          match np_max wrs with
          | inl e => (inl (Uncaught e), w2)
          | inr hi =>
              let bins := arange_step1 (to_float lo - 0.5) (to_float hi + 0.5) in
              (inr (mkHistCall wrs bins), w2)
          end
      end
  end.

End Illustration.

(** The generator after [k] values have been taken from it. *)
Definition advance (k : nat) (w : World) : World :=
  mkWorld (rng_stream w) (rng_pos w + k) (stdout w).

(** A generator about to produce the doubles 0.05, 0.65, 0.95 and 0.5. *)
Definition cell_w : World := world_of [dbl 0.05; dbl 0.65; dbl 0.95; 0.5].

(** ** The sampler on concrete inputs *)

Example run_linear_weights :
  weightedRandomSample 3 [1; 2; 3; 4] ex_w
  = (Return (VSample [0; 3; 3]%nat [dbl 0.05; dbl 0.65; dbl 0.95]),
     mkWorld (rng_stream ex_w) 3 []).
Proof. vm_compute. reflexivity. Qed.

Example run_all_zero :
  cumulative_weights [0; 0; 0] = [NaN; NaN; NaN] /\
  sample_indices (fst (weightedRandomSample 5 [0; 0; 0] ex_w))
  = Some [0; 0; 0; 0; 0]%nat.
Proof. split; vm_compute; reflexivity. Qed.

Example run_negative_count :
  fst (weightedRandomSample (-1) [1; 2; 3] ex_w)
  = Raise (ValueError "negative dimensions are not allowed").
Proof. reflexivity. Qed.

Example run_negative_weight :
  fst (weightedRandomSample (-1) [1; -2; 3] ex_w) = Return VNaN.
Proof. reflexivity. Qed.

Example run_ties :
  cumulative_weights [0; 1; 0; 1] = [Fin 0; Fin (1 # 2); Fin (1 # 2); Fin 1]
  /\ fst (weightedRandomSample 2 [0; 1; 0; 1] tie_w)
     = Return (VSample [0; 1]%nat [0; 0.5]).
Proof. split; vm_compute; reflexivity. Qed.

(** Eight weights of 1.1: the running sum ends one unit in the last place
    below the pairwise total, and the largest draw falls past the end. *)
Example run_eight_weights :
  float64_eq (last (cumsum w8) NaN) (Fin (dbl 8.8 - 2 ^ (-49))) /\
  sum w8 = Fin (dbl 8.8) /\
  sample_indices
    (fst (weightedRandomSample 4 w8 (world_of [top; 0.5; 0.75; 0.875])))
  = Some [8; 3; 6; 7]%nat.
Proof. split; [|split]; vm_compute; reflexivity. Qed.

(** A total that overflows. *)
Example run_overflow :
  cumsum w_huge = [Fin (2 ^ 1023); PInf] /\ sum w_huge = PInf /\
  cumulative_weights w_huge = [Fin 0; NaN] /\
  sample_indices
    (fst (weightedRandomSample 2 w_huge (world_of [0.25; 0.75])))
  = Some [1; 1]%nat.
Proof. split; [|split; [|split]]; vm_compute; reflexivity. Qed.

(** Small weights absorbed by a large one. *)
Example run_absorbed :
  cumulative_weights [2 ^ 53; 1; 1] = [Fin 1; Fin 1; Fin 1] /\
  sample_indices
    (fst (weightedRandomSample 2 [2 ^ 53; 1; 1] (world_of [top; 0.5])))
  = Some [0; 0]%nat.
Proof. split; vm_compute; reflexivity. Qed.

(** The quotient 4/5 is rounded to the double 0.8, and a draw equal to it is
    given the first item. *)
Example run_rounded_quotient :
  cumulative_weights [4; 1] = [Fin (dbl 0.8); Fin 1] /\
  sample_indices (fst (weightedRandomSample 1 [4; 1] (world_of [dbl 0.8])))
  = Some [0%nat].
Proof. split; vm_compute; reflexivity. Qed.

(** Multiplying the weights by 3 can move a draw to another item. *)
Example run_scaled :
  let weights := [inject_Z 5289948611014224; inject_Z 681690109681765] in
  let t := inject_Z 7978985905763599 * 2 ^ (-53) in
  sample_indices (fst (weightedRandomSample 1 weights (world_of [t])))
  = Some [0%nat] /\
  sample_indices
    (fst (weightedRandomSample 1 (map (Qmult 3) weights) (world_of [t])))
  = Some [1%nat].
Proof. split; vm_compute; reflexivity. Qed.

Example run_searchsorted :
  searchsorted [Fin 0.1; Fin 0.3; Fin 0.6; Fin 1] [Fin 0.3; Fin 0.31; Fin 2; NaN]
  = [1; 2; 4; 4]%nat.
Proof. reflexivity. Qed.

Example run_cell :
  match fst (illustration (fun _ => "sorted"%string) 10 4 cell_w) with
  | inr h =>
      hist_x h = [1; 7; 9; 6]%nat /\
      Forall2 Qeq (hist_bins h) [0.5; 1.5; 2.5; 3.5; 4.5; 5.5; 6.5; 7.5; 8.5]
  | inl _ => False
  end.
Proof. vm_compute. split; [reflexivity|repeat constructor]. Qed.

Example run_sort : np_sort [3; 0; 9; 3; 1]%nat = [0; 1; 3; 3; 9]%nat.
Proof. reflexivity. Qed.

(** ** Powers of two *)

Lemma two_neq_0 : ~ 2 == 0.
Proof. intros H. discriminate H. Qed.

Lemma pow2_pos (z : Z) : 0 < 2 ^ z.
Proof. apply Qpower_0_lt. reflexivity. Qed.

Lemma pow2_add (a b : Z) : 2 ^ (a + b) == 2 ^ a * 2 ^ b.
Proof. apply Qpower_plus, two_neq_0. Qed.

Lemma pow2_le (a b : Z) : (a <= b)%Z -> 2 ^ a <= 2 ^ b.
Proof. intros H. apply Qpower_le_compat_l; [exact H|discriminate]. Qed.

Lemma pow2_lt (a b : Z) : (a < b)%Z -> 2 ^ a < 2 ^ b.
Proof. intros H. apply Qpower_lt_compat_l; [exact H|reflexivity]. Qed.

Lemma pow2_lt_inv (a b : Z) : 2 ^ a < 2 ^ b -> (a < b)%Z.
Proof. intros H. apply (Qpower_lt_compat_l_inv 2); [exact H|reflexivity]. Qed.

Lemma pow2_Z (n : Z) : (0 <= n)%Z -> inject_Z (2 ^ n) == 2 ^ n.
Proof. intros H. apply (Zpower_Qpower 2 n H). Qed.

Lemma pow2_S (a : Z) : 2 ^ (a + 1) == 2 * 2 ^ a.
Proof. rewrite pow2_add. change (2 ^ 1) with 2. ring. Qed.

(** Moving a factor [2^a] across an inequality. *)
Lemma pow2_cancel (a : Z) : 2 ^ a * 2 ^ (- a) == 1.
Proof. rewrite <- pow2_add. now replace (a + - a)%Z with 0%Z by lia. Qed.

(** ** The binary logarithm *)

Lemma ilog2_spec (q : Q) :
  0 < q -> 2 ^ (ilog2 q) <= q /\ q < 2 ^ (ilog2 q + 1).
Proof.
  intros Hq. destruct q as [n d].
  assert (Hn : (0 < n)%Z).
  { unfold Qlt in Hq. simpl in Hq. lia. }
  unfold ilog2. simpl Qnum. simpl Qden.
  set (a := Z.log2 n). set (b := Z.log2 (Z.pos d)).
  pose proof (Z.log2_spec n Hn) as [Ha1 Ha2]. fold a in Ha1, Ha2.
  assert (Hd : (0 < Z.pos d)%Z) by lia.
  pose proof (Z.log2_spec (Z.pos d) Hd) as [Hb1 Hb2]. fold b in Hb1, Hb2.
  assert (Ha0 : (0 <= a)%Z) by apply Z.log2_nonneg.
  assert (Hb0 : (0 <= b)%Z) by apply Z.log2_nonneg.
  set (N := inject_Z n). set (D := inject_Z (Z.pos d)).
  assert (HN1 : 2 ^ a <= N).
  { rewrite <- pow2_Z by exact Ha0. unfold N. rewrite <- Zle_Qle. exact Ha1. }
  assert (HN2 : N < 2 ^ (a + 1)).
  { rewrite <- pow2_Z by lia. unfold N. rewrite <- Zlt_Qlt. exact Ha2. }
  assert (HD1 : 2 ^ b <= D).
  { rewrite <- pow2_Z by exact Hb0. unfold D. rewrite <- Zle_Qle. exact Hb1. }
  assert (HD2 : D < 2 ^ (b + 1)).
  { rewrite <- pow2_Z by lia. unfold D. rewrite <- Zlt_Qlt. exact Hb2. }
  assert (HqD : (n # d) * D == N).
  { unfold D, N. rewrite (Qmake_Qdiv n d). field. discriminate. }
  assert (HD0 : 0 < D) by (apply Qlt_le_trans with (2 ^ b); [apply pow2_pos|exact HD1]).
  destruct (Qle_bool (2 ^ (a - b)) (n # d)) eqn:E.
  - apply Qle_bool_iff in E. split; [exact E|].
    apply (Qmult_lt_r _ _ D HD0). rewrite HqD.
    apply Qlt_le_trans with (2 ^ (a + 1)); [exact HN2|].
    replace (a + 1)%Z with ((a - b + 1) + b)%Z by lia. rewrite pow2_add.
    apply Qmult_le_l; [apply pow2_pos|exact HD1].
  - assert (E' : (n # d) < 2 ^ (a - b)).
    { apply Qnot_le_lt. intros H. apply Qle_bool_iff in H. congruence. }
    replace (a - b - 1 + 1)%Z with (a - b)%Z by lia. split; [|exact E'].
    apply (Qmult_le_r _ _ D HD0). rewrite HqD.
    apply Qle_trans with (2 ^ a); [|exact HN1].
    replace a with ((a - b - 1) + (b + 1))%Z at 2 by lia. rewrite pow2_add.
    apply Qmult_le_l; [apply pow2_pos|]. apply Qlt_le_weak. exact HD2.
Qed.

Lemma ilog2_unique (q : Q) (k : Z) :
  2 ^ k <= q -> q < 2 ^ (k + 1) -> ilog2 q = k.
Proof.
  intros H1 H2.
  assert (Hq : 0 < q) by (apply Qlt_le_trans with (2 ^ k); [apply pow2_pos|exact H1]).
  destruct (ilog2_spec q Hq) as [E1 E2].
  assert (ilog2 q < k + 1)%Z.
  { apply pow2_lt_inv. apply Qle_lt_trans with q; assumption. }
  assert (k < ilog2 q + 1)%Z.
  { apply pow2_lt_inv. apply Qle_lt_trans with q; assumption. }
  lia.
Qed.

Lemma ilog2_mono (q1 q2 : Q) :
  0 < q1 -> q1 <= q2 -> (ilog2 q1 <= ilog2 q2)%Z.
Proof.
  intros H1 H12.
  assert (H2 : 0 < q2) by (apply Qlt_le_trans with q1; assumption).
  destruct (ilog2_spec q1 H1) as [A1 _]. destruct (ilog2_spec q2 H2) as [_ B2].
  assert (ilog2 q1 < ilog2 q2 + 1)%Z; [|lia].
  apply pow2_lt_inv. apply Qle_lt_trans with q1; [exact A1|].
  apply Qle_lt_trans with q2; assumption.
Qed.

Lemma ilog2_comp (q1 q2 : Q) : 0 < q1 -> q1 == q2 -> ilog2 q1 = ilog2 q2.
Proof.
  intros H1 E. symmetry. destruct (ilog2_spec q1 H1) as [A B].
  apply ilog2_unique; rewrite <- E; assumption.
Qed.

(** ** Rounding to the nearest integer *)

Lemma floor_bounds (s : Q) :
  inject_Z (Qfloor s) <= s /\ s < inject_Z (Qfloor s) + 1.
Proof.
  split; [apply Qfloor_le|].
  pose proof (Qlt_floor s) as H. rewrite inject_Z_plus in H. exact H.
Qed.

(** The result is the floor or the integer above it, on the side of the
    half. *)
Lemma rhe_cases (s : Q) :
  (round_half_even s = Qfloor s /\ s - inject_Z (Qfloor s) <= 1 # 2) \/
  (round_half_even s = (Qfloor s + 1)%Z /\ 1 # 2 <= s - inject_Z (Qfloor s)).
Proof.
  unfold round_half_even. cbv zeta.
  destruct (Qcompare_spec (s - inject_Z (Qfloor s)) (1 # 2)) as [E|L|G].
  - destruct (Z.even (Qfloor s)); [left|right]; (split; [reflexivity|]);
      rewrite E; apply Qle_refl.
  - left. split; [reflexivity|]. apply Qlt_le_weak. exact L.
  - right. split; [reflexivity|]. apply Qlt_le_weak. exact G.
Qed.

Lemma rhe_err (s : Q) :
  inject_Z (round_half_even s) - s <= 1 # 2 /\
  s - inject_Z (round_half_even s) <= 1 # 2.
Proof.
  destruct (floor_bounds s) as [F1 F2].
  destruct (rhe_cases s) as [[-> H]|[-> H]].
  - split; lra.
  - rewrite inject_Z_plus. change (inject_Z 1) with 1. split; lra.
Qed.

Lemma rhe_comp (s1 s2 : Q) :
  s1 == s2 -> round_half_even s1 = round_half_even s2.
Proof.
  intros E. unfold round_half_even. cbv zeta.
  rewrite (Qfloor_comp _ _ E).
  assert (E' : s1 - inject_Z (Qfloor s2) == s2 - inject_Z (Qfloor s2))
    by (rewrite E; reflexivity).
  now rewrite (Qcompare_comp _ _ E' (1 # 2) (1 # 2) (Qeq_refl _)).
Qed.

Lemma rhe_int (s : Q) (z : Z) : s == inject_Z z -> round_half_even s = z.
Proof.
  intros E. rewrite (rhe_comp _ _ E). unfold round_half_even. cbv zeta.
  rewrite Qfloor_Z.
  destruct (Qcompare_spec (inject_Z z - inject_Z z) (1 # 2)) as [H|H|H].
  - exfalso. lra.
  - reflexivity.
  - exfalso. lra.
Qed.

Lemma rhe_mono (s1 s2 : Q) :
  s1 <= s2 -> (round_half_even s1 <= round_half_even s2)%Z.
Proof.
  intros H.
  pose proof (Qfloor_resp_le _ _ H) as Hf.
  destruct (Z.eq_dec (Qfloor s1) (Qfloor s2)) as [E|NE].
  - unfold round_half_even. cbv zeta. rewrite E.
    destruct (Qcompare_spec (s1 - inject_Z (Qfloor s2)) (1 # 2)) as [A|A|A];
      destruct (Qcompare_spec (s2 - inject_Z (Qfloor s2)) (1 # 2)) as [B|B|B];
      try lia; try (exfalso; lra);
      destruct (Z.even (Qfloor s2)); lia.
  - destruct (rhe_cases s1) as [[-> _]|[-> _]];
      destruct (rhe_cases s2) as [[-> _]|[-> _]]; lia.
Qed.

Lemma rhe_ge (a : Z) (s : Q) : inject_Z a <= s -> (a <= round_half_even s)%Z.
Proof.
  intros H. rewrite <- (rhe_int (inject_Z a) a (Qeq_refl _)).
  apply rhe_mono. exact H.
Qed.

Lemma rhe_le (b : Z) (s : Q) : s <= inject_Z b -> (round_half_even s <= b)%Z.
Proof.
  intros H. rewrite <- (rhe_int (inject_Z b) b (Qeq_refl _)).
  apply rhe_mono. exact H.
Qed.
(** ** Rounding a positive rational to 53 bits *)

Section RoundPositive.

Variable q : Q.
Hypothesis q_pos : 0 < q.

Let e := Z.max (ilog2 q) emin.
Let s := q * 2 ^ (52 - e).
Let m := round_half_even s.

Lemma rnd_val_eq : rnd_val q = inject_Z m * 2 ^ (e - 52).
Proof. reflexivity. Qed.

Lemma rnd_e_min : (emin <= e)%Z.
Proof. unfold e. lia. Qed.

Lemma rnd_s_pos : 0 < s.
Proof. unfold s. apply Qmult_lt_0_compat; [exact q_pos|apply pow2_pos]. Qed.

Lemma rnd_s_lt : s < 2 ^ 53.
Proof.
  unfold s. destruct (ilog2_spec q q_pos) as [_ H].
  assert (H' : q < 2 ^ (e + 1)).
  { apply Qlt_le_trans with (2 ^ (ilog2 q + 1)); [exact H|].
    apply pow2_le. unfold e. lia. }
  apply Qlt_le_trans with (2 ^ (e + 1) * 2 ^ (52 - e)).
  - apply Qmult_lt_r; [apply pow2_pos|exact H'].
  - rewrite <- pow2_add. replace (e + 1 + (52 - e))%Z with 53%Z by lia.
    apply Qle_refl.
Qed.

Lemma rnd_s_ge : (emin <= ilog2 q)%Z -> 2 ^ 52 <= s.
Proof.
  intros Hn. unfold s. destruct (ilog2_spec q q_pos) as [H _].
  assert (E : e = ilog2 q) by (unfold e; lia).
  apply Qle_trans with (2 ^ e * 2 ^ (52 - e)).
  - rewrite <- pow2_add. replace (e + (52 - e))%Z with 52%Z by lia.
    apply Qle_refl.
  - apply Qmult_le_r; [apply pow2_pos|]. rewrite E. exact H.
Qed.

Lemma rnd_m_nonneg : (0 <= m)%Z.
Proof.
  unfold m. apply rhe_ge. apply Qlt_le_weak. exact rnd_s_pos.
Qed.

Lemma rnd_m_le : (m <= 2 ^ 53)%Z.
Proof.
  unfold m. apply rhe_le. rewrite pow2_Z by lia.
  apply Qlt_le_weak. exact rnd_s_lt.
Qed.

Lemma rnd_m_ge : (emin <= ilog2 q)%Z -> (2 ^ 52 <= m)%Z.
Proof.
  intros Hn. unfold m. apply rhe_ge. rewrite pow2_Z by lia.
  apply rnd_s_ge. exact Hn.
Qed.

Lemma rnd_m_shape : (2 ^ 52 <= m)%Z \/ e = emin.
Proof.
  destruct (Z_le_gt_dec emin (ilog2 q)) as [H|H].
  - left. apply rnd_m_ge. exact H.
  - right. unfold e. lia.
Qed.

Lemma rnd_val_nonneg : 0 <= rnd_val q.
Proof.
  rewrite rnd_val_eq. apply Qmult_le_0_compat.
  - change 0 with (inject_Z 0). rewrite <- Zle_Qle. exact rnd_m_nonneg.
  - apply Qlt_le_weak, pow2_pos.
Qed.

(** The value in terms of the scaled quantity. *)
Lemma rnd_q_eq : q == s * 2 ^ (e - 52).
Proof.
  unfold s. rewrite <- Qmult_assoc, <- pow2_add.
  replace (52 - e + (e - 52))%Z with 0%Z by lia.
  change (2 ^ 0) with 1. ring.
Qed.

(** The rounding error is at most half a unit in the last place. *)
Lemma rnd_val_err :
  rnd_val q - q <= 2 ^ (e - 53) /\ q - rnd_val q <= 2 ^ (e - 53).
Proof.
  rewrite rnd_val_eq. pose proof rnd_q_eq as Hq.
  destruct (rhe_err s) as [H1 H2]. fold m in H1, H2.
  assert (P : 0 < 2 ^ (e - 52)) by apply pow2_pos.
  assert (E : 2 ^ (e - 53) == (1 # 2) * 2 ^ (e - 52)).
  { replace (e - 53)%Z with (-1 + (e - 52))%Z by lia. rewrite pow2_add.
    reflexivity. }
  rewrite E. clear E.
  generalize dependent (2 ^ (e - 52)). generalize dependent (inject_Z m).
  intros M H1 H2 P Hq HP. split; nra.
Qed.

(** When the scaled quantity is an integer nothing is lost. *)
Lemma rnd_val_exact (z : Z) : s == inject_Z z -> rnd_val q == q.
Proof.
  intros H. rewrite rnd_val_eq. unfold m. rewrite (rhe_int s z H).
  pose proof rnd_q_eq as Hq. rewrite H in Hq. symmetry. exact Hq.
Qed.

(** In the normal range the result stays within the binade of [q]. *)
Lemma rnd_val_ge_pow : (emin <= ilog2 q)%Z -> 2 ^ (ilog2 q) <= rnd_val q.
Proof.
  intros Hn. rewrite rnd_val_eq.
  assert (E : e = ilog2 q) by (unfold e; lia). rewrite <- E.
  apply Qle_trans with (2 ^ 52 * 2 ^ (e - 52)).
  - rewrite <- pow2_add. replace (52 + (e - 52))%Z with e by lia.
    apply Qle_refl.
  - apply Qmult_le_r; [apply pow2_pos|]. rewrite <- pow2_Z by lia.
    rewrite <- Zle_Qle. apply rnd_m_ge. exact Hn.
Qed.

Lemma rnd_val_le_pow : rnd_val q <= 2 ^ (e + 1).
Proof.
  rewrite rnd_val_eq.
  apply Qle_trans with (2 ^ 53 * 2 ^ (e - 52)).
  - apply Qmult_le_r; [apply pow2_pos|]. rewrite <- pow2_Z by lia.
    rewrite <- Zle_Qle. exact rnd_m_le.
  - rewrite <- pow2_add. replace (53 + (e - 52))%Z with (e + 1)%Z by lia.
    apply Qle_refl.
Qed.

End RoundPositive.

Lemma rnd_val_comp (q1 q2 : Q) : 0 < q1 -> q1 == q2 -> rnd_val q1 == rnd_val q2.
Proof.
  intros H E. unfold rnd_val. cbv zeta.
  rewrite <- (ilog2_comp q1 q2 H E).
  assert (E' : q1 * 2 ^ (52 - Z.max (ilog2 q1) emin)
               == q2 * 2 ^ (52 - Z.max (ilog2 q1) emin))
    by (apply Qmult_comp; [exact E|reflexivity]).
  rewrite (rhe_comp _ _ E'). reflexivity.
Qed.

Lemma rnd_val_mono (q1 q2 : Q) :
  0 < q1 -> q1 <= q2 -> rnd_val q1 <= rnd_val q2.
Proof.
  intros H1 H12.
  assert (H2 : 0 < q2) by (apply Qlt_le_trans with q1; assumption).
  pose proof (ilog2_mono q1 q2 H1 H12) as Hl.
  destruct (Z.eq_dec (Z.max (ilog2 q1) emin) (Z.max (ilog2 q2) emin)) as [E|NE].
  - unfold rnd_val. cbv zeta. rewrite E.
    apply Qmult_le_r; [apply pow2_pos|]. rewrite <- Zle_Qle.
    apply rhe_mono. apply Qmult_le_r; [apply pow2_pos|exact H12].
  - assert (Hlt : (Z.max (ilog2 q1) emin < ilog2 q2)%Z) by lia.
    apply Qle_trans with (2 ^ (Z.max (ilog2 q1) emin + 1)).
    + apply rnd_val_le_pow. exact H1.
    + apply Qle_trans with (2 ^ (ilog2 q2)).
      * apply pow2_le. lia.
      * apply rnd_val_ge_pow; [exact H2|lia].
Qed.

(** A number with at most 53 significant bits above the smallest exponent is
    left unchanged. *)
Lemma rnd_val_grid (m e : Z) :
  (0 < m <= 2 ^ 53)%Z -> (emin <= e)%Z -> ((2 ^ 52 <= m)%Z \/ e = emin) ->
  rnd_val (inject_Z m * 2 ^ (e - 52)) == inject_Z m * 2 ^ (e - 52).
Proof.
  intros [Hm0 Hm1] He Hshape.
  set (v := inject_Z m * 2 ^ (e - 52)).
  assert (Hv : 0 < v).
  { unfold v. apply Qmult_lt_0_compat; [|apply pow2_pos].
    change 0 with (inject_Z 0). rewrite <- Zlt_Qlt. exact Hm0. }
  assert (Hup : v <= 2 ^ (e + 1)).
  { unfold v. apply Qle_trans with (2 ^ 53 * 2 ^ (e - 52)).
    - apply Qmult_le_r; [apply pow2_pos|]. rewrite <- pow2_Z by lia.
      rewrite <- Zle_Qle. exact Hm1.
    - rewrite <- pow2_add. replace (53 + (e - 52))%Z with (e + 1)%Z by lia.
      apply Qle_refl. }
  destruct (Z.eq_dec m (2 ^ 53)) as [Em|Nm].
  - (* the top of the binade *)
    assert (Ev : v == 2 ^ (e + 1)).
    { unfold v. rewrite Em, pow2_Z by lia. rewrite <- pow2_add.
      now replace (53 + (e - 52))%Z with (e + 1)%Z by lia. }
    assert (El : ilog2 v = (e + 1)%Z).
    { apply ilog2_unique; rewrite Ev; [apply Qle_refl|apply pow2_lt; lia]. }
    apply (rnd_val_exact v (2 ^ 52)).
    rewrite El. replace (Z.max (e + 1) emin) with (e + 1)%Z by lia.
    rewrite Ev, <- pow2_add, pow2_Z by lia.
    now replace (e + 1 + (52 - (e + 1)))%Z with 52%Z by lia.
  - assert (Hlt : v < 2 ^ (e + 1)).
    { unfold v. apply Qlt_le_trans with (2 ^ 53 * 2 ^ (e - 52)).
      - apply Qmult_lt_r; [apply pow2_pos|]. rewrite <- pow2_Z by lia.
        rewrite <- Zlt_Qlt. lia.
      - rewrite <- pow2_add. replace (53 + (e - 52))%Z with (e + 1)%Z by lia.
        apply Qle_refl. }
    assert (Emax : Z.max (ilog2 v) emin = e).
    { destruct (Z_le_gt_dec (2 ^ 52) m) as [Hbig|Hsmall].
      - assert (ilog2 v = e); [|lia].
        apply ilog2_unique; [|exact Hlt].
        unfold v. apply Qle_trans with (2 ^ 52 * 2 ^ (e - 52)).
        + rewrite <- pow2_add. replace (52 + (e - 52))%Z with e by lia.
          apply Qle_refl.
        + apply Qmult_le_r; [apply pow2_pos|]. rewrite <- pow2_Z by lia.
          rewrite <- Zle_Qle. exact Hbig.
      - destruct Hshape as [Hbig|Ee]; [lia|]. subst e.
        assert (ilog2 v < emin)%Z; [|lia].
        destruct (ilog2_spec v Hv) as [A _].
        apply pow2_lt_inv. apply Qle_lt_trans with v; [exact A|].
        unfold v. apply Qlt_le_trans with (2 ^ 52 * 2 ^ (emin - 52)).
        + apply Qmult_lt_r; [apply pow2_pos|]. rewrite <- pow2_Z by lia.
          rewrite <- Zlt_Qlt. lia.
        + rewrite <- pow2_add. apply Qle_refl. }
    apply (rnd_val_exact v m). rewrite Emax. unfold v.
    rewrite <- Qmult_assoc, <- pow2_add.
    replace (e - 52 + (52 - e))%Z with 0%Z by lia.
    change (2 ^ 0) with 1. ring.
Qed.

Lemma rnd_val_idem (q : Q) :
  0 < q -> 0 < rnd_val q -> rnd_val (rnd_val q) == rnd_val q.
Proof.
  intros Hq Hv. rewrite (rnd_val_eq q) in *.
  apply rnd_val_grid.
  - split; [|apply rnd_m_le; exact Hq].
    pose proof (rnd_m_nonneg q Hq) as H0.
    destruct (Z.eq_dec (round_half_even (q * 2 ^ (52 - Z.max (ilog2 q) emin))) 0)
      as [E|NE]; [|lia].
    rewrite E in Hv. exfalso. rewrite Qmult_0_l in Hv. exact (Qlt_irrefl 0 Hv).
  - apply rnd_e_min.
  - apply rnd_m_shape. exact Hq.
Qed.
(** ** The order on doubles *)

Lemma Qltb_lt (x y : Q) : Qltb x y = true <-> x < y.
Proof.
  unfold Qltb. rewrite negb_true_iff. split; intro H.
  - apply Qnot_le_lt. intro Hle. apply Qle_bool_iff in Hle. congruence.
  - destruct (Qle_bool y x) eqn:E; [|reflexivity].
    apply Qle_bool_iff in E. exfalso. exact (Qlt_not_le _ _ H E).
Qed.

Lemma Qltb_ge (x y : Q) : Qltb x y = false <-> y <= x.
Proof.
  unfold Qltb. rewrite negb_false_iff. apply Qle_bool_iff.
Qed.

Lemma less_Fin_lt (x y : Q) : less (Fin x) (Fin y) = true <-> x < y.
Proof. simpl. apply Qltb_lt. Qed.

Lemma less_Fin_ge (x y : Q) : less (Fin x) (Fin y) = false <-> y <= x.
Proof. simpl. apply Qltb_ge. Qed.

Lemma less_NaN_l (key : float64) : less NaN key = false.
Proof. reflexivity. Qed.

Lemma float64_eq_refl (a : float64) : float64_eq a a.
Proof. destruct a; simpl; auto. reflexivity. Qed.

Lemma float64_eq_sym (a b : float64) : float64_eq a b -> float64_eq b a.
Proof. destruct a, b; simpl; auto. intros H. now symmetry. Qed.

Lemma float64_eq_trans (a b c : float64) :
  float64_eq a b -> float64_eq b c -> float64_eq a c.
Proof.
  destruct a, b, c; simpl; auto; try contradiction.
  intros H1 H2. now rewrite H1.
Qed.

Lemma Qltb_comp (x x' y y' : Q) : x == x' -> y == y' -> Qltb x y = Qltb x' y'.
Proof. intros Hx Hy. unfold Qltb. now rewrite Hx, Hy. Qed.

Lemma less_comp (a a' b b' : float64) :
  float64_eq a a' -> float64_eq b b' -> less a b = less a' b'.
Proof.
  destruct a, a'; simpl; try contradiction; intros Ha;
    destruct b, b'; simpl; try contradiction; intros Hb; try reflexivity.
  apply Qltb_comp; assumption.
Qed.

Lemma fle_refl (a : float64) : fle a a.
Proof. destruct a; unfold fle; simpl; auto. apply Qltb_ge, Qle_refl. Qed.

Lemma fle_comp (a a' b b' : float64) :
  float64_eq a a' -> float64_eq b b' -> fle a b -> fle a' b'.
Proof.
  unfold fle. intros Ha Hb H. now rewrite <- (less_comp b b' a a' Hb Ha).
Qed.

Lemma fle_trans (a b c : float64) : fle a b -> fle b c -> fle a c.
Proof.
  unfold fle. destruct a, b, c; simpl; try discriminate; auto.
  rewrite !Qltb_ge. intros H1 H2. lra.
Qed.

(** What sorts before the key keeps doing so further down the order. *)
Lemma less_fle_trans (a b k : float64) :
  fle a b -> less b k = true -> less a k = true.
Proof.
  unfold fle. destruct a, b, k; simpl; try discriminate; auto.
  rewrite Qltb_ge, !Qltb_lt. intros H1 H2. lra.
Qed.

Lemma fle_Fin (x y : Q) : fle (Fin x) (Fin y) <-> x <= y.
Proof. unfold fle. apply less_Fin_ge. Qed.

(** ** Rounding to a double *)

Lemma round_pos_cases (q : Q) :
  (round_pos q = PInf /\ 2 ^ 1024 <= rnd_val q) \/
  (round_pos q = Fin (Qred (rnd_val q)) /\ rnd_val q < 2 ^ 1024).
Proof.
  unfold round_pos. cbv zeta.
  destruct (Qle_bool (2 ^ 1024) (rnd_val q)) eqn:E.
  - left. split; [reflexivity|]. apply Qle_bool_iff. exact E.
  - right. split; [reflexivity|]. apply Qnot_le_lt. intros H.
    apply Qle_bool_iff in H. congruence.
Qed.

Lemma round53_zero (q : Q) : q == 0 -> round53 q = Fin 0.
Proof. intros H. unfold round53. apply Qeq_alt in H. now rewrite H. Qed.

Lemma round53_pos (q : Q) : 0 < q -> round53 q = round_pos q.
Proof. intros H. unfold round53. apply Qgt_alt in H. now rewrite H. Qed.

Lemma round_pos_comp (q1 q2 : Q) :
  0 < q1 -> q1 == q2 -> round_pos q1 = round_pos q2.
Proof.
  intros H E. unfold round_pos. cbv zeta.
  pose proof (rnd_val_comp q1 q2 H E) as Ev.
  rewrite (Qred_complete _ _ Ev).
  now rewrite (Qleb_comp _ _ (Qeq_refl (2 ^ 1024)) _ _ Ev).
Qed.

Lemma round53_comp (q1 q2 : Q) : q1 == q2 -> round53 q1 = round53 q2.
Proof.
  intros E. unfold round53.
  rewrite (Qcompare_comp _ _ E 0 0 (Qeq_refl 0)).
  destruct (Qcompare_spec q2 0) as [H|H|H].
  - reflexivity.
  - f_equal. apply round_pos_comp; [rewrite E|rewrite E; reflexivity]. lra.
  - apply round_pos_comp; [rewrite E; exact H|exact E].
Qed.

Lemma round53_nonneg_cases (q : Q) :
  0 <= q ->
  round53 q = PInf \/ exists r, round53 q = Fin r /\ 0 <= r /\ is_double r.
Proof.
  intros Hq. destruct (Qle_lt_or_eq _ _ Hq) as [Hpos|Hz].
  - rewrite round53_pos by exact Hpos.
    destruct (round_pos_cases q) as [[-> _]|[E Hlt]]; [now left|right].
    exists (Qred (rnd_val q)). split; [exact E|].
    pose proof (rnd_val_nonneg q Hpos) as Hv.
    pose proof (Qred_correct (rnd_val q)) as Er.
    split; [lra|].
    unfold is_double.
    destruct (Qle_lt_or_eq _ _ Hv) as [Hvpos|Hvz].
    + rewrite (round53_comp _ _ Er).
      rewrite round53_pos by exact Hvpos.
      pose proof (rnd_val_idem q Hpos Hvpos) as Ei.
      destruct (round_pos_cases (rnd_val q)) as [[_ Hge]|[-> _]].
      * exfalso. lra.
      * cbn [float64_eq].
        pose proof (Qred_correct (rnd_val (rnd_val q))) as Er2. lra.
    + rewrite round53_zero by lra.
      cbn [float64_eq]. lra.
  - right. exists 0. rewrite round53_zero by (now symmetry).
    split; [reflexivity|]. split; [apply Qle_refl|].
    unfold is_double. rewrite round53_zero by reflexivity. reflexivity.
Qed.

Lemma round53_nonneg (q : Q) : 0 <= q -> fnonneg (round53 q).
Proof.
  intros H. destruct (round53_nonneg_cases q H) as [->|(r & -> & H0 & Hd)];
    simpl; auto.
Qed.

Lemma round53_mono (q1 q2 : Q) :
  0 <= q1 -> q1 <= q2 -> fle (round53 q1) (round53 q2).
Proof.
  intros H1 H12.
  destruct (Qle_lt_or_eq _ _ H1) as [Hpos|Hz].
  - assert (Hpos2 : 0 < q2) by lra.
    rewrite !round53_pos by assumption.
    pose proof (rnd_val_mono q1 q2 Hpos H12) as Hm.
    destruct (round_pos_cases q1) as [[-> A]|[-> A]];
      destruct (round_pos_cases q2) as [[-> B]|[-> B]]; unfold fle; cbn [less]; auto.
    + exfalso. lra.
    + apply Qltb_ge.
      pose proof (Qred_correct (rnd_val q1)). pose proof (Qred_correct (rnd_val q2)).
      lra.
  - rewrite (round53_zero q1) by (now symmetry).
    assert (H2 : 0 <= q2) by lra.
    destruct (round53_nonneg_cases q2 H2) as [->|(r & -> & H0 & _)];
      unfold fle; cbn [less]; auto.
    apply Qltb_ge. exact H0.
Qed.

Lemma is_double_0 : is_double 0.
Proof. unfold is_double. rewrite round53_zero by reflexivity. reflexivity. Qed.

Lemma fnonneg_cast (x : Q) : 0 <= x -> fnonneg (cast x).
Proof. apply round53_nonneg. Qed.

(** ** Adding non-negative doubles *)

Lemma fadd_nonneg (x y : float64) :
  fnonneg x -> fnonneg y ->
  fnonneg (fadd x y) /\ fle x (fadd x y) /\ fle y (fadd x y).
Proof.
  destruct x as [a| | |], y as [b| | |]; cbn [fnonneg fadd]; try contradiction;
    intros Hx Hy; try (repeat split; reflexivity).
  destruct Hx as [Ha Hda], Hy as [Hb Hdb].
  assert (Hab : 0 <= a + b) by lra.
  split; [apply round53_nonneg; exact Hab|]. split.
  - apply (fle_comp (round53 a) (Fin a) (round53 (a + b)) (round53 (a + b)));
      [exact Hda|apply float64_eq_refl|].
    apply round53_mono; lra.
  - apply (fle_comp (round53 b) (Fin b) (round53 (a + b)) (round53 (a + b)));
      [exact Hdb|apply float64_eq_refl|].
    apply round53_mono; lra.
Qed.

Lemma fadd_0_l (x : float64) : fnonneg x -> float64_eq (fadd (Fin 0) x) x.
Proof.
  destruct x as [a| | |]; cbn [fnonneg fadd float64_eq]; try contradiction; auto.
  intros [_ Hd]. rewrite (round53_comp (0 + a) a) by ring. exact Hd.
Qed.

Lemma fadd_0_r (x : float64) : fnonneg x -> float64_eq (fadd x (Fin 0)) x.
Proof.
  destruct x as [a| | |]; cbn [fnonneg fadd float64_eq]; try contradiction; auto.
  intros [_ Hd]. rewrite (round53_comp (a + 0) a) by ring. exact Hd.
Qed.

Lemma fadd_comp (x x' y y' : float64) :
  float64_eq x x' -> float64_eq y y' -> fadd x y = fadd x' y'.
Proof.
  destruct x, x'; cbn [float64_eq]; try contradiction; intros Hx;
    destruct y, y'; cbn [float64_eq fadd]; try contradiction; intros Hy;
    try reflexivity.
  apply round53_comp. now rewrite Hx, Hy.
Qed.
(** ** The order of the additions *)

Lemma sums_add_seq (l a : list float64) (v : float64) :
  sums l v -> sums (l ++ a) (add_seq v a).
Proof.
  revert l v. induction a as [|x a IH]; intros l v H.
  - rewrite app_nil_r. exact H.
  - change (add_seq v (x :: a)) with (add_seq (fadd v x) a).
    replace (l ++ x :: a) with ((l ++ [x]) ++ a)
      by (rewrite <- app_assoc; reflexivity).
    apply IH. apply sums_add; [exact H|apply sums_one].
Qed.

Lemma cumsum_from_sums (acc : float64) (l : list float64) (a : list Q)
      (k : nat) (c : float64) :
  sums l acc -> nth_error (cumsum_from acc a) k = Some c ->
  sums (l ++ map cast (firstn (S k) a)) c.
Proof.
  revert acc l k. induction a as [|x a IH]; intros acc l k H Hk.
  - destruct k; discriminate.
  - assert (Hx : sums (l ++ [cast x]) (fadd acc (cast x)))
      by (apply sums_add; [exact H|apply sums_one]).
    destruct k as [|k]; cbn [cumsum_from nth_error] in Hk.
    + injection Hk as <-. exact Hx.
    + specialize (IH _ _ _ Hx Hk).
      rewrite <- app_assoc in IH. exact IH.
Qed.

(** Entry [k] of [np.cumsum] adds the first [k+1] elements. *)
Lemma cumsum_sums (a : list Q) (k : nat) (c : float64) :
  nth_error (cumsum a) k = Some c -> sums (map cast (firstn (S k) a)) c.
Proof.
  destruct a as [|x a]; [destruct k; discriminate|].
  destruct k as [|k]; cbn [cumsum nth_error].
  - intros H. injection H as <-. apply sums_one.
  - intros H.
    apply (cumsum_from_sums (cast x) [cast x] a k c (sums_one _) H).
Qed.

Lemma zip_add_length (r block : list float64) :
  length (zip_add r block) = length r.
Proof.
  revert block. induction r as [|x r IH]; intros block; [reflexivity|].
  destruct block; cbn [zip_add length]; [reflexivity|]. now rewrite IH.
Qed.

Lemma zip_add_sums (parts : list (list float64)) (r block : list float64) :
  Forall2 sums parts r -> (length block <= length r)%nat ->
  exists parts',
    Forall2 sums parts' (zip_add r block) /\
    Permutation (concat parts') (concat parts ++ block).
Proof.
  intros H. revert block. induction H as [|p x parts r Hp Hrest IH]; intros block Hb.
  - destruct block; [|simpl in Hb; lia]. exists []. split; constructor.
  - destruct block as [|y block].
    + exists (p :: parts). split; [constructor; assumption|].
      rewrite app_nil_r. apply Permutation_refl.
    + simpl in Hb. destruct (IH block) as (parts' & Hs & Hperm); [lia|].
      exists ((p ++ [y]) :: parts'). split.
      * cbn [zip_add]. constructor; [|exact Hs].
        apply sums_add; [exact Hp|apply sums_one].
      * cbn [concat]. rewrite <- !app_assoc.
        apply Permutation_app_head. cbn [app].
        apply Permutation_trans with (y :: concat parts ++ block).
        -- constructor. exact Hperm.
        -- apply Permutation_middle.
Qed.

Lemma firstn_add {A : Type} (n m : nat) (l : list A) :
  firstn (n + m) l = firstn n l ++ firstn m (skipn n l).
Proof.
  revert l. induction n as [|n IH]; intros l; [reflexivity|].
  destruct l as [|x l]; cbn [Nat.add firstn skipn app].
  - now rewrite firstn_nil.
  - now rewrite IH.
Qed.

Lemma add_blocks_length (k : nat) (r a : list float64) :
  length (add_blocks k r a) = length r.
Proof.
  revert r a. induction k as [|k IH]; intros r a; [reflexivity|].
  cbn [add_blocks]. now rewrite IH, zip_add_length.
Qed.

Lemma add_blocks_sums (k : nat) (parts : list (list float64))
      (r a : list float64) :
  Forall2 sums parts r -> (8 <= length r)%nat ->
  exists parts',
    Forall2 sums parts' (add_blocks k r a) /\
    Permutation (concat parts') (concat parts ++ firstn (8 * k) a).
Proof.
  revert parts r a. induction k as [|k IH]; intros parts r a H Hr.
  - exists parts. split; [exact H|]. cbn [Nat.mul firstn].
    rewrite app_nil_r. apply Permutation_refl.
  - cbn [add_blocks].
    destruct (zip_add_sums parts r (firstn 8 a) H) as (p1 & H1 & P1).
    { rewrite length_firstn. lia. }
    destruct (IH p1 (zip_add r (firstn 8 a)) (skipn 8 a) H1) as (p2 & H2 & P2).
    { rewrite zip_add_length. exact Hr. }
    exists p2. split; [exact H2|].
    replace (8 * S k)%nat with (8 + 8 * k)%nat by lia.
    rewrite firstn_add, app_assoc.
    apply Permutation_trans with (concat p1 ++ firstn (8 * k) (skipn 8 a));
      [exact P2|].
    apply Permutation_app_tail. exact P1.
Qed.

Lemma tree8_sums (parts : list (list float64)) (r : list float64) :
  Forall2 sums parts r -> length r = 8%nat -> sums (concat parts) (tree8 r).
Proof.
  intros H Hr. pose proof (Forall2_length H) as Hl.
  destruct r as [|r0 [|r1 [|r2 [|r3 [|r4 [|r5 [|r6 [|r7 [|]]]]]]]]];
    try discriminate Hr.
  destruct parts as [|p0 [|p1 [|p2 [|p3 [|p4 [|p5 [|p6 [|p7 [|]]]]]]]]];
    try discriminate Hl.
  repeat (apply Forall2_cons_iff in H; destruct H as [? H]).
  cbn [tree8 concat]. rewrite app_nil_r.
  match goal with
  | |- sums (?p0 ++ ?p1 ++ ?p2 ++ ?p3 ++ ?p4 ++ ?p5 ++ ?p6 ++ ?p7) _ =>
      replace (p0 ++ p1 ++ p2 ++ p3 ++ p4 ++ p5 ++ p6 ++ p7)
        with (((p0 ++ p1) ++ (p2 ++ p3)) ++ ((p4 ++ p5) ++ (p6 ++ p7)))
        by (rewrite <- !app_assoc; reflexivity)
  end.
  repeat apply sums_add; assumption.
Qed.

Lemma singletons_sums (l : list float64) :
  Forall2 sums (map (fun x => [x]) l) l.
Proof. induction l; constructor; [apply sums_one|assumption]. Qed.

Lemma concat_singletons {A : Type} (l : list A) :
  concat (map (fun x => [x]) l) = l.
Proof. induction l as [|x l IH]; [reflexivity|]. cbn. now rewrite IH. Qed.

Lemma full_blocks (n : nat) :
  (8 <= n)%nat ->
  exists k, (n - n mod 8 = 8 + 8 * k)%nat /\ ((n - n mod 8) / 8 - 1 = k)%nat.
Proof.
  intros Hn. pose proof (Nat.div_mod_eq n 8) as E.
  pose proof (Nat.mod_upper_bound n 8) as Hm.
  assert (F : (n - n mod 8 = 8 * (n / 8))%nat) by lia.
  assert (D : ((n - n mod 8) / 8 = n / 8)%nat).
  { rewrite F, Nat.mul_comm. apply Nat.div_mul. lia. }
  exists (n / 8 - 1)%nat. rewrite D. split; lia.
Qed.

Lemma pairwise_block_sums (a : list float64) :
  (8 <= length a)%nat -> sums a (pairwise_block a).
Proof.
  intros Hn. unfold pairwise_block. cbv zeta.
  destruct (full_blocks (length a) Hn) as (k & Hfull & Hk).
  rewrite Hk. set (full := (length a - length a mod 8)%nat) in *.
  destruct (add_blocks_sums k (map (fun x => [x]) (firstn 8 a))
              (firstn 8 a) (skipn 8 a) (singletons_sums _))
    as (parts & Hs & Hperm).
  { rewrite length_firstn. lia. }
  assert (Ht : sums (concat parts)
                    (tree8 (add_blocks k (firstn 8 a) (skipn 8 a)))).
  { apply tree8_sums; [exact Hs|].
    rewrite add_blocks_length, length_firstn. lia. }
  apply (sums_perm (concat parts ++ skipn full a)).
  - rewrite <- (firstn_skipn full a) at 2. apply Permutation_app_tail.
    rewrite Hfull, firstn_add. rewrite concat_singletons in Hperm. exact Hperm.
  - apply sums_add_seq. exact Ht.
Qed.

Lemma add_seq_sums (a : list float64) : sums a (add_seq (Fin 0) a).
Proof. apply (sums_add_seq [] a (Fin 0)). apply sums_nil. Qed.

(** The pairwise sum adds every element exactly once. *)
Lemma pairwise_sum_sums (fuel : nat) (a : list float64) :
  sums a (pairwise_sum fuel a).
Proof.
  revert a. induction fuel as [|fuel IH]; intros a; cbn [pairwise_sum];
    destruct (Nat.ltb_spec (length a) 8) as [H8|H8];
    try apply add_seq_sums;
    destruct (Nat.leb_spec (length a) 128) as [H128|H128];
    try (apply pairwise_block_sums; exact H8);
    try apply add_seq_sums.
  rewrite <- (firstn_skipn (length a / 2 - (length a / 2) mod 8) a) at 1.
  apply sums_add; apply IH.
Qed.

Lemma sum_sums (a : list Q) : sums (map cast a) (sum a).
Proof.
  unfold sum. apply (sums_add [] (map cast a)); [apply sums_nil|].
  apply pairwise_sum_sums.
Qed.

Lemma half_cut (n : nat) :
  (128 < n)%nat -> (0 < n / 2 - (n / 2) mod 8 < n)%nat.
Proof.
  intros Hn. pose proof (Nat.div_mod_eq n 2) as E.
  pose proof (Nat.mod_upper_bound n 2) as Hm.
  pose proof (Nat.mod_upper_bound (n / 2) 8) as Hm8. lia.
Qed.

(** With as much fuel as elements the recursion never runs dry: more fuel
    does not change the result. *)
Lemma pairwise_sum_fuel (f1 f2 : nat) (a : list float64) :
  (length a <= f1)%nat -> (length a <= f2)%nat ->
  pairwise_sum f1 a = pairwise_sum f2 a.
Proof.
  revert f2 a. induction f1 as [|f1 IH]; intros f2 a H1 H2.
  - destruct f2; cbn [pairwise_sum];
      destruct (Nat.ltb_spec (length a) 8); try reflexivity;
      destruct (Nat.leb_spec (length a) 128); try reflexivity; lia.
  - destruct f2; cbn [pairwise_sum];
      destruct (Nat.ltb_spec (length a) 8); try reflexivity;
      destruct (Nat.leb_spec (length a) 128) as [|Hbig]; try reflexivity;
      try lia.
    pose proof (half_cut (length a) Hbig) as Hc.
    f_equal; apply IH; rewrite ?length_firstn, ?length_skipn; lia.
Qed.
(** ** Correctness of the binary search *)

(** One iteration of the search loop. *)
Lemma binsearch_left_step (fuel : nat) (arr : list float64) (key : float64)
      (lo hi : nat) :
  binsearch_left (S fuel) arr key lo hi =
  if (lo <? hi)%nat then
    if less (nth (lo + (hi - lo) / 2) arr NaN) key
    then binsearch_left fuel arr key (lo + (hi - lo) / 2 + 1) hi
    else binsearch_left fuel arr key lo (lo + (hi - lo) / 2)
  else lo.
Proof. reflexivity. Qed.

Section BinarySearch.

Variable arr : list float64.
Variable key : float64.

(** The array is partitioned by the key: the entries that sort before the
    key form a prefix.  Every sorted array is. *)
Hypothesis partitioned :
  forall i j, (i <= j < length arr)%nat ->
              before_key arr key j = true -> before_key arr key i = true.

Lemma binsearch_left_inv (fuel lo hi : nat) :
  (hi - lo <= fuel)%nat ->
  (lo <= hi <= length arr)%nat ->
  (forall i, (i < lo)%nat -> before_key arr key i = true) ->
  (forall i, (hi <= i < length arr)%nat -> before_key arr key i = false) ->
  let r := binsearch_left fuel arr key lo hi in
  (lo <= r <= hi)%nat /\
  (forall i, (i < r)%nat -> before_key arr key i = true) /\
  (forall i, (r <= i < length arr)%nat -> before_key arr key i = false).
Proof.
  cbv zeta. revert lo hi.
  induction fuel as [|fuel' IH]; intros lo hi Hfuel Hrange Hlo Hhi.
  - simpl. assert (lo = hi) by lia. subst hi.
    split; [lia|]. split; assumption.
  - rewrite binsearch_left_step.
    destruct (Nat.ltb_spec lo hi) as [Hlt|Hge].
    + set (mid := (lo + (hi - lo) / 2)%nat).
      assert (Hmid : (lo <= mid < hi)%nat).
      { unfold mid.
        assert ((hi - lo) / 2 < hi - lo)%nat by (apply Nat.div_lt; lia).
        lia. }
      fold (before_key arr key mid).
      destruct (before_key arr key mid) eqn:Emid.
      * destruct (IH (mid + 1)%nat hi) as (Hr & Hbelow & Habove);
          try lia; try assumption.
        { intros i Hi. apply (partitioned i mid); [lia|assumption]. }
        split; [lia|]. split; assumption.
      * destruct (IH lo mid) as (Hr & Hbelow & Habove);
          try lia; try assumption.
        { intros i Hi. destruct (before_key arr key i) eqn:Ei; [|reflexivity].
          rewrite (partitioned mid i) in Emid; [discriminate|lia|assumption]. }
        split; [lia|]. split; assumption.
    + assert (lo = hi) by lia. subst hi.
      split; [lia|]. split; assumption.
Qed.

(** The whole-array search returns the length of the prefix that sorts
    before the key. *)
Lemma binsearch_left_whole :
  let r := binsearch_left (length arr) arr key 0 (length arr) in
  (r <= length arr)%nat /\
  (forall i, (i < r)%nat -> before_key arr key i = true) /\
  (forall i, (r <= i < length arr)%nat -> before_key arr key i = false).
Proof.
  cbv zeta.
  destruct (binsearch_left_inv (length arr) 0 (length arr)) as (Hr & Hb & Ha);
    try lia.
  split; [lia|]. split; assumption.
Qed.

(** More fuel than the interval is long changes nothing. *)
Lemma binsearch_left_fuel (f1 f2 lo hi : nat) :
  (hi - lo <= f1)%nat -> (hi - lo <= f2)%nat ->
  binsearch_left f1 arr key lo hi = binsearch_left f2 arr key lo hi.
Proof.
  revert f2 lo hi. induction f1 as [|f1 IH]; intros f2 lo hi H1 H2.
  - destruct f2; [reflexivity|]. rewrite binsearch_left_step. simpl.
    destruct (Nat.ltb_spec lo hi); [lia|reflexivity].
  - destruct f2; rewrite ?binsearch_left_step.
    + simpl. destruct (Nat.ltb_spec lo hi); [lia|reflexivity].
    + destruct (Nat.ltb_spec lo hi) as [Hlt|]; [|reflexivity].
      assert ((hi - lo) / 2 < hi - lo)%nat by (apply Nat.div_lt; lia).
      destruct (less _ key); apply IH; lia.
Qed.

End BinarySearch.

(** A search over an array of [nan] never moves its lower bound. *)
Lemma binsearch_left_all_nan (fuel : nat) (arr : list float64) (key : float64)
      (lo hi : nat) :
  (forall i, nth i arr NaN = NaN) ->
  binsearch_left fuel arr key lo hi = lo.
Proof.
  intros Hnan. revert hi. induction fuel as [|fuel IH]; intros hi.
  - reflexivity.
  - rewrite binsearch_left_step. destruct (lo <? hi)%nat; [|reflexivity].
    rewrite Hnan. rewrite less_NaN_l. apply IH.
Qed.

(** ** The guard and the run of the sampler *)

Lemma any_weights_lt_0_false (weights : list Q) :
  Forall (fun x => 0 <= x) weights -> any (weights_lt_0 weights) = false.
Proof.
  induction 1 as [|x l Hx _ IH]; [reflexivity|].
  unfold any, weights_lt_0 in *. simpl. rewrite IH.
  rewrite orb_false_r. apply Qltb_ge. exact Hx.
Qed.

Lemma any_weights_lt_0_true (weights : list Q) :
  Exists (fun x => x < 0) weights -> any (weights_lt_0 weights) = true.
Proof.
  induction 1 as [x l Hx|x l _ IH]; unfold any, weights_lt_0 in *; simpl.
  - apply Qltb_lt in Hx. now rewrite Hx.
  - rewrite IH. apply orb_true_r.
Qed.

Lemma nth_nonneg (weights : list Q) (i : nat) :
  Forall (fun x => 0 <= x) weights -> 0 <= nth i weights 0.
Proof.
  intros H. revert i. induction H as [|x l Hx _ IH]; intros [|i]; simpl;
    try apply Qle_refl; auto.
Qed.

Lemma any_weights_lt_0_false_inv (weights : list Q) :
  any (weights_lt_0 weights) = false -> Forall (fun x => 0 <= x) weights.
Proof.
  induction weights as [|x l IH]; intros H; constructor;
    unfold any, weights_lt_0 in *; simpl in H; apply orb_false_iff in H.
  - apply Qltb_ge. apply H.
  - apply IH. apply H.
Qed.

Lemma any_weights_lt_0_true_inv (weights : list Q) :
  any (weights_lt_0 weights) = true -> Exists (fun x => x < 0) weights.
Proof.
  induction weights as [|x l IH]; intros H;
    unfold any, weights_lt_0 in *; simpl in H; [discriminate|].
  apply orb_true_iff in H. destruct H as [H|H].
  - apply Exists_cons_hd. apply Qltb_lt. exact H.
  - apply Exists_cons_tl. apply IH. exact H.
Qed.

Lemma searchsorted_draw_index (weights : list Q) (theSam : list Q) :
  searchsorted (cumulative_weights weights) (map Fin theSam)
  = map (draw_index weights) theSam.
Proof. unfold searchsorted. rewrite map_map. reflexivity. Qed.

Lemma Forall2_map_l {A B : Type} (R : B -> A -> Prop) (f : A -> B) (l : list A) :
  (forall x, In x l -> R (f x) x) -> Forall2 R (map f l) l.
Proof.
  induction l as [|x l IH]; intros H; simpl; constructor.
  - apply H. now left.
  - apply IH. intros y Hy. apply H. now right.
Qed.

Lemma Forall2_Forall_l {A B : Type} (R : B -> A -> Prop) (P : A -> Prop)
      (Q' : B -> Prop) (l1 : list B) (l2 : list A) :
  Forall2 R l1 l2 -> Forall P l2 ->
  (forall i t, R i t -> P t -> Q' i) -> Forall Q' l1.
Proof.
  intros H2 HP Himp. induction H2 as [|i t l1 l2 Hit _ IH]; constructor.
  - inversion HP; subst. eapply Himp; eassumption.
  - apply IH. now inversion HP.
Qed.

Lemma last_nth_pred (qs : list Q) :
  last qs 0 = nth (length qs - 1) qs 0.
Proof.
  induction qs as [|x qs IH]; [reflexivity|].
  destruct qs as [|y qs]; [reflexivity|].
  change (last (x :: y :: qs) 0) with (last (y :: qs) 0). rewrite IH.
  simpl. now rewrite Nat.sub_0_r.
Qed.

(** With no negative weight and a non-negative count, the call draws [n]
    values, searches each of them, and returns both arrays. *)
Lemma wrs_run (n : Z) (weights : list Q) (w : World) :
  Forall (fun x => 0 <= x) weights -> (0 <= n)%Z ->
  weightedRandomSample n weights w =
  (Return (VSample (map (draw_index weights) (draws (Z.to_nat n) w))
                   (draws (Z.to_nat n) w)),
   mkWorld (rng_stream w) (rng_pos w + Z.to_nat n) (stdout w)).
Proof.
  intros Hnn Hn. unfold weightedRandomSample.
  rewrite any_weights_lt_0_false by exact Hnn.
  unfold random_sample. destruct (Z.ltb_spec n 0) as [Hneg|_]; [lia|].
  cbv zeta. rewrite searchsorted_draw_index. reflexivity.
Qed.

Lemma draws_length (k : nat) (w : World) : length (draws k w) = k.
Proof. unfold draws. now rewrite length_map, length_seq. Qed.

Lemma map_const_repeat {A B : Type} (f : A -> B) (b : B) (l : list A) :
  (forall x, f x = b) -> map f l = repeat b (length l).
Proof.
  intros H. induction l as [|x l IH]; simpl; [reflexivity|].
  now rewrite H, IH.
Qed.

Lemma draws_app (a b : nat) (w : World) :
  draws (a + b) w = draws a w ++ draws b (advance a w).
Proof.
  unfold draws, advance. simpl. rewrite seq_app, map_app. reflexivity.
Qed.

(** ** Sums of non-negative doubles *)

(** A sum of non-negative doubles is non-negative and at least each of its
    terms: no rounding takes it below one of them. *)
Lemma sums_dominates (l : list float64) (v : float64) :
  sums l v -> Forall fnonneg l ->
  fnonneg v /\ Forall (fun x => fle x v) l.
Proof.
  induction 1 as [|x|l1 l2 v1 v2 _ IH1 _ IH2|l l' v P _ IH]; intros Hl.
  - split; [|constructor]. split; [apply Qle_refl|apply is_double_0].
  - inversion Hl; subst. split; [assumption|].
    constructor; [apply fle_refl|constructor].
  - apply Forall_app in Hl. destruct Hl as [Hl1 Hl2].
    destruct (IH1 Hl1) as [N1 D1]. destruct (IH2 Hl2) as [N2 D2].
    destruct (fadd_nonneg v1 v2 N1 N2) as (N & L1 & L2).
    split; [exact N|]. apply Forall_app. split.
    + eapply Forall_impl; [|exact D1]. intros x Hx.
      apply fle_trans with v1; assumption.
    + eapply Forall_impl; [|exact D2]. intros x Hx.
      apply fle_trans with v2; assumption.
  - assert (Hl0 : Forall fnonneg l)
      by (apply (Permutation_Forall (Permutation_sym P)); exact Hl).
    destruct (IH Hl0) as [N D]. split; [exact N|].
    apply (Permutation_Forall P). exact D.
Qed.

Lemma casts_nonneg (a : list Q) :
  Forall (fun x => 0 <= x) a -> Forall fnonneg (map cast a).
Proof.
  intros H. apply Forall_map. eapply Forall_impl; [|exact H].
  intros x Hx. apply fnonneg_cast. exact Hx.
Qed.

(** The total is non-negative and at least each weight as a double. *)
Lemma sum_dominates (a : list Q) :
  Forall (fun x => 0 <= x) a ->
  fnonneg (sum a) /\ Forall (fun x => fle (cast x) (sum a)) a.
Proof.
  intros H.
  destruct (sums_dominates _ _ (sum_sums a) (casts_nonneg a H)) as [N D].
  split; [exact N|]. apply Forall_map in D. exact D.
Qed.

(** A sum whose terms are all zero is zero. *)
Lemma sums_zero (l : list float64) (v : float64) :
  sums l v -> Forall (fun x => float64_eq x (Fin 0)) l -> float64_eq v (Fin 0).
Proof.
  induction 1 as [|x|l1 l2 v1 v2 _ IH1 _ IH2|l l' v P _ IH]; intros Hl.
  - reflexivity.
  - now inversion Hl.
  - apply Forall_app in Hl. destruct Hl as [Hl1 Hl2].
    rewrite (fadd_comp v1 (Fin 0) v2 (Fin 0) (IH1 Hl1) (IH2 Hl2)).
    cbn [fadd]. rewrite round53_zero by reflexivity. reflexivity.
  - apply IH. apply (Permutation_Forall (Permutation_sym P)). exact Hl.
Qed.

Lemma fnonneg_le_zero (x : float64) :
  fnonneg x -> fle x (Fin 0) -> float64_eq x (Fin 0).
Proof.
  destruct x as [q| | |]; cbn [fnonneg]; try contradiction.
  - intros [H0 _] H. apply fle_Fin in H. cbn [float64_eq]. lra.
  - intros _ H. discriminate H.
Qed.

(** ** The running sums *)

Lemma fsorted_cons (x : float64) (l : list float64) :
  Forall (fle x) l -> fsorted l -> fsorted (x :: l).
Proof.
  intros Hx Hl i j [Hij Hj]. destruct i as [|i], j as [|j]; cbn [nth].
  - apply fle_refl.
  - rewrite Forall_forall in Hx. apply Hx. apply nth_In. simpl in Hj. lia.
  - lia.
  - apply Hl. simpl in Hj. lia.
Qed.

Lemma fsorted_nil : fsorted [].
Proof. intros i j [_ H]. simpl in H. lia. Qed.

Lemma cumsum_from_facts (acc : float64) (a : list Q) :
  fnonneg acc -> Forall (fun x => 0 <= x) a ->
  Forall (fun c => fnonneg c /\ fle acc c) (cumsum_from acc a) /\
  fsorted (cumsum_from acc a).
Proof.
  intros Hacc Ha. revert acc Hacc.
  induction Ha as [|x a Hx _ IH]; intros acc Hacc; cbn [cumsum_from].
  - split; [constructor|apply fsorted_nil].
  - destruct (fadd_nonneg acc (cast x) Hacc (fnonneg_cast x Hx)) as (N & L & _).
    destruct (IH (fadd acc (cast x)) N) as [F S]. split.
    + constructor; [split; assumption|].
      eapply Forall_impl; [|exact F]. intros c [Nc Lc]. split; [exact Nc|].
      apply fle_trans with (fadd acc (cast x)); assumption.
    + apply fsorted_cons; [|exact S].
      eapply Forall_impl; [|exact F]. intros c [_ Lc]. exact Lc.
Qed.

(** The running sums of non-negative weights are non-negative and never
    decrease. *)
Lemma cumsum_facts (a : list Q) :
  Forall (fun x => 0 <= x) a ->
  Forall fnonneg (cumsum a) /\ fsorted (cumsum a).
Proof.
  intros Ha. destruct Ha as [|x a Hx Ha]; cbn [cumsum].
  - split; [constructor|apply fsorted_nil].
  - destruct (cumsum_from_facts (cast x) a (fnonneg_cast x Hx) Ha) as [F S].
    split.
    + constructor; [apply fnonneg_cast; exact Hx|].
      eapply Forall_impl; [|exact F]. intros c [Nc _]. exact Nc.
    + apply fsorted_cons; [|exact S].
      eapply Forall_impl; [|exact F]. intros c [_ Lc]. exact Lc.
Qed.

Lemma cumsum_from_length (acc : float64) (a : list Q) :
  length (cumsum_from acc a) = length a.
Proof.
  revert acc. induction a as [|x a IH]; intros acc; cbn [cumsum_from length];
    [reflexivity|]. now rewrite IH.
Qed.

Lemma cumsum_length (a : list Q) : length (cumsum a) = length a.
Proof.
  destruct a as [|x a]; cbn [cumsum length]; [reflexivity|].
  now rewrite cumsum_from_length.
Qed.

Lemma cumulative_weights_length (weights : list Q) :
  length (cumulative_weights weights) = length weights.
Proof. unfold cumulative_weights. now rewrite length_map, cumsum_length. Qed.

(** ** Dividing by the total *)

Lemma divide_zero_zero (c u : float64) :
  float64_eq c (Fin 0) -> float64_eq u (Fin 0) -> divide c u = NaN.
Proof.
  destruct c as [a| | |]; cbn [float64_eq]; try contradiction.
  destruct u as [b| | |]; cbn [float64_eq]; try contradiction.
  intros Ha Hb. cbn [divide].
  apply Qeq_bool_iff in Hb. rewrite Hb. apply Qeq_alt in Ha. now rewrite Ha.
Qed.

(** Division by a total that is not zero keeps the order. *)
Lemma divide_mono (a b u : float64) :
  fnonneg a -> fnonneg b -> fle a b -> fnonneg u -> ~ float64_eq u (Fin 0) ->
  fle (divide a u) (divide b u).
Proof.
  intros Ha Hb Hab Hu Hnz.
  destruct u as [q| | |]; cbn [fnonneg] in Hu; try contradiction.
  - destruct Hu as [Hq _]. cbn [float64_eq] in Hnz.
    assert (Hqpos : 0 < q).
    { destruct (Qle_lt_or_eq _ _ Hq) as [H|H]; [exact H|].
      exfalso. apply Hnz. now symmetry. }
    assert (Eq0 : Qeq_bool q 0 = false).
    { destruct (Qeq_bool q 0) eqn:E; [|reflexivity].
      apply Qeq_bool_iff in E. lra. }
    assert (Eq1 : Qle_bool 0 q = true) by (apply Qle_bool_iff; exact Hq).
    destruct a as [x| | |], b as [y| | |]; cbn [fnonneg] in Ha, Hb;
      try contradiction; cbn [divide]; rewrite ?Eq0, ?Eq1.
    + destruct Ha as [Hx _]. apply fle_Fin in Hab.
      apply round53_mono.
      * apply Qle_shift_div_l; [exact Hqpos|]. lra.
      * apply Qle_shift_div_l; [exact Hqpos|].
        unfold Qdiv. rewrite <- Qmult_assoc, (Qmult_comm (/ q)).
        rewrite Qmult_inv_r by lra. lra.
    + destruct Ha as [Hx _].
      assert (Hd : 0 <= x / q) by (apply Qle_shift_div_l; [exact Hqpos|]; lra).
      destruct (round53_nonneg_cases (x / q) Hd) as [->|(r & -> & _)];
        reflexivity.
    + discriminate Hab.
    + reflexivity.
  - destruct a as [x| | |], b as [y| | |]; cbn [fnonneg] in Ha, Hb;
      try contradiction; cbn [divide]; try reflexivity.
    discriminate Hab.
Qed.

Lemma nth_map_NaN (f : float64 -> float64) (l : list float64) (i : nat) :
  (i < length l)%nat -> nth i (map f l) NaN = f (nth i l NaN).
Proof.
  intros Hi. rewrite (nth_indep _ NaN (f NaN)) by (rewrite length_map; exact Hi).
  apply map_nth.
Qed.

Lemma fadd_zero_zero (x y : float64) :
  float64_eq x (Fin 0) -> float64_eq y (Fin 0) -> float64_eq (fadd x y) (Fin 0).
Proof.
  intros Hx Hy. rewrite (fadd_comp x (Fin 0) y (Fin 0) Hx Hy).
  cbn [fadd]. rewrite round53_zero by reflexivity. reflexivity.
Qed.

Lemma cumsum_from_zero (acc : float64) (a : list Q) :
  float64_eq acc (Fin 0) ->
  Forall (fun x => float64_eq (cast x) (Fin 0)) a ->
  Forall (fun c => float64_eq c (Fin 0)) (cumsum_from acc a).
Proof.
  intros Hacc Ha. revert acc Hacc.
  induction Ha as [|x a Hx _ IH]; intros acc Hacc; cbn [cumsum_from];
    constructor.
  - apply fadd_zero_zero; assumption.
  - apply IH. apply fadd_zero_zero; assumption.
Qed.

Lemma cumsum_zero (a : list Q) :
  Forall (fun x => float64_eq (cast x) (Fin 0)) a ->
  Forall (fun c => float64_eq c (Fin 0)) (cumsum a).
Proof.
  intros Ha. destruct Ha as [|x a Hx Ha]; cbn [cumsum]; constructor.
  - exact Hx.
  - apply cumsum_from_zero; assumption.
Qed.

(** When the total is zero every weight is zero as a double, and so is every
    running sum. *)
Lemma zero_total (weights : list Q) :
  Forall (fun x => 0 <= x) weights ->
  float64_eq (sum weights) (Fin 0) ->
  Forall (fun x => float64_eq (cast x) (Fin 0)) weights /\
  Forall (fun c => float64_eq c (Fin 0)) (cumsum weights).
Proof.
  intros Hnn Hz. destruct (sum_dominates weights Hnn) as [_ Du].
  assert (Hall : Forall (fun x => float64_eq (cast x) (Fin 0)) weights).
  { rewrite Forall_forall in *. intros x Hx. apply fnonneg_le_zero.
    - apply fnonneg_cast, Hnn, Hx.
    - apply (fle_comp (cast x) (cast x) (sum weights) (Fin 0));
        [apply float64_eq_refl|exact Hz|apply Du, Hx]. }
  split; [exact Hall|]. apply cumsum_zero. exact Hall.
Qed.

(** The cumulative-weight sequence of non-negative weights is in NumPy's
    sort order, whatever the rounding did. *)
Lemma cumulative_weights_sorted (weights : list Q) :
  Forall (fun x => 0 <= x) weights -> fsorted (cumulative_weights weights).
Proof.
  intros Hnn. unfold cumulative_weights.
  destruct (cumsum_facts weights Hnn) as [Fc Sc].
  destruct (sum_dominates weights Hnn) as [Nu _].
  intros i j Hij. rewrite length_map in Hij.
  rewrite !nth_map_NaN by lia.
  assert (Hi : fnonneg (nth i (cumsum weights) NaN)).
  { rewrite Forall_forall in Fc. apply Fc, nth_In. lia. }
  assert (Hj : fnonneg (nth j (cumsum weights) NaN)).
  { rewrite Forall_forall in Fc. apply Fc, nth_In. lia. }
  assert (Hle : fle (nth i (cumsum weights) NaN) (nth j (cumsum weights) NaN))
    by (apply Sc; exact Hij).
  assert (Hdec : float64_eq (sum weights) (Fin 0) \/
                 ~ float64_eq (sum weights) (Fin 0)).
  { destruct (sum weights) as [q| | |]; cbn [float64_eq]; auto.
    destruct (Qeq_dec q 0); auto. }
  destruct Hdec as [Hz|Hnz].
  - destruct (zero_total weights Hnn Hz) as [_ Hc].
    rewrite Forall_forall in Hc.
    rewrite !divide_zero_zero;
      [apply fle_refl| |exact Hz| |exact Hz]; apply Hc, nth_In; lia.
  - apply divide_mono; assumption.
Qed.

(** ** What the search returns for one draw *)

Section OneDraw.

Variable weights : list Q.
Hypothesis weights_nonneg : Forall (fun x => 0 <= x) weights.
Variable t : Q.

(** The entries before the returned index sort before the draw, the others
    do not. *)
Lemma draw_index_spec :
  (draw_index weights t <= length weights)%nat /\
  (forall i, (i < draw_index weights t)%nat ->
             before_key (cumulative_weights weights) (Fin t) i = true) /\
  (forall i, (draw_index weights t <= i < length weights)%nat ->
             before_key (cumulative_weights weights) (Fin t) i = false).
Proof.
  unfold draw_index. cbv zeta.
  pose proof (binsearch_left_whole (cumulative_weights weights) (Fin t)) as H.
  cbv zeta in H. rewrite cumulative_weights_length in *. apply H.
  intros i j Hij. unfold before_key. apply less_fle_trans.
  apply cumulative_weights_sorted; [exact weights_nonneg|].
  rewrite cumulative_weights_length. exact Hij.
Qed.

End OneDraw.

Lemma before_key_mono (wc : list float64) (t1 t2 : Q) (i : nat) :
  t1 <= t2 -> before_key wc (Fin t1) i = true -> before_key wc (Fin t2) i = true.
Proof.
  unfold before_key. intros Ht.
  destruct (nth i wc NaN) as [c| | |]; cbn [less]; auto.
  rewrite !Qltb_lt. lra.
Qed.

Lemma draw_index_monotone (weights : list Q) (t1 t2 : Q) :
  Forall (fun x => 0 <= x) weights -> t1 <= t2 ->
  (draw_index weights t1 <= draw_index weights t2)%nat.
Proof.
  intros Hnn Ht.
  destruct (draw_index_spec weights Hnn t1) as (Hd1 & Hb1 & _).
  destruct (draw_index_spec weights Hnn t2) as (Hd2 & _ & Ha2).
  destruct (Nat.le_gt_cases (draw_index weights t1) (draw_index weights t2))
    as [|Hgt]; [assumption|].
  exfalso.
  pose proof (before_key_mono _ t1 t2 _ Ht (Hb1 _ Hgt)) as H.
  rewrite Ha2 in H by lia. discriminate H.
Qed.

Lemma nth_error_nth_NaN (l : list float64) (i : nat) (c : float64) :
  nth_error l i = Some c -> nth i l NaN = c.
Proof. intros H. apply nth_error_nth. exact H. Qed.

(** When a draw equals some entry of the cumulative sequence, the search
    returns the leftmost such entry. *)
Lemma draw_index_smallest_tie (weights : list Q) (t : Q) :
  Forall (fun x => 0 <= x) weights ->
  smallest_tie (cumulative_weights weights) (draw_index weights t) t.
Proof.
  intros Hnn j c Hj Hc.
  destruct (draw_index_spec weights Hnn t) as (_ & Hbelow & Habove).
  assert (Hjl : (j < length weights)%nat).
  { rewrite <- cumulative_weights_length. apply nth_error_Some. congruence. }
  assert (Hnj : nth j (cumulative_weights weights) NaN = Fin c)
    by (apply nth_error_nth_NaN; exact Hj).
  assert (Hle : (draw_index weights t <= j)%nat).
  { destruct (Nat.le_gt_cases (draw_index weights t) j) as [|Hgt]; [assumption|].
    exfalso. specialize (Hbelow j Hgt). unfold before_key in Hbelow.
    rewrite Hnj in Hbelow. apply less_Fin_lt in Hbelow. lra. }
  split; [exact Hle|].
  pose proof (cumulative_weights_sorted weights Hnn (draw_index weights t) j) as Hs.
  rewrite cumulative_weights_length in Hs. specialize (Hs (conj Hle Hjl)).
  specialize (Habove (draw_index weights t) (conj (Nat.le_refl _)
                        (Nat.le_lt_trans _ _ _ Hle Hjl))).
  unfold before_key in Habove. rewrite Hnj in Hs.
  assert (Hr : (draw_index weights t < length (cumulative_weights weights))%nat)
    by (rewrite cumulative_weights_length; lia).
  destruct (nth_error (cumulative_weights weights) (draw_index weights t))
    as [c'|] eqn:Er; [|apply nth_error_None in Er; lia].
  rewrite (nth_error_nth_NaN _ _ _ Er) in Hs, Habove.
  destruct c' as [x| | |]; try discriminate Hs; try discriminate Habove.
  exists x. split; [reflexivity|].
  apply fle_Fin in Hs. apply less_Fin_ge in Habove. lra.
Qed.
(** ** Helpers for the statements *)

Lemma map_Forall_repeat {A B : Type} (f : A -> B) (b : B) (l : list A) :
  Forall (fun x => f x = b) l -> map f l = repeat b (length l).
Proof.
  induction 1 as [|x l Hx _ IH]; [reflexivity|].
  cbn [map length repeat]. now rewrite Hx, IH.
Qed.

Lemma cumulative_weights_all_zero (weights : list Q) :
  Forall (fun x => x == 0) weights ->
  cumulative_weights weights = repeat NaN (length weights).
Proof.
  intros Hz.
  assert (Hc : Forall (fun x => float64_eq (cast x) (Fin 0)) weights).
  { eapply Forall_impl; [|exact Hz]. intros x Hx. cbv beta in Hx.
    unfold cast. rewrite (round53_zero x Hx). reflexivity. }
  assert (Hu : float64_eq (sum weights) (Fin 0)).
  { apply (sums_zero _ _ (sum_sums weights)). apply Forall_map. exact Hc. }
  unfold cumulative_weights. rewrite <- (cumsum_length weights).
  apply map_Forall_repeat.
  eapply Forall_impl; [|apply cumsum_zero; exact Hc].
  intros c Hcz. apply divide_zero_zero; assumption.
Qed.

Lemma all_zero_nonneg (weights : list Q) :
  Forall (fun x => x == 0) weights -> Forall (fun x => 0 <= x) weights.
Proof.
  intros H. eapply Forall_impl; [|exact H].
  intros x Hx. cbv beta in Hx. lra.
Qed.

Lemma draw_index_all_zero (weights : list Q) (t : Q) :
  Forall (fun x => x == 0) weights -> draw_index weights t = 0%nat.
Proof.
  intros Hz. unfold draw_index. cbv zeta.
  rewrite cumulative_weights_all_zero by exact Hz.
  apply binsearch_left_all_nan. intros i. apply nth_repeat.
Qed.






Lemma divide_comp_l (a a' u : float64) :
  float64_eq a a' -> divide a u = divide a' u.
Proof.
  destruct a as [x| | |], a' as [x'| | |]; cbn [float64_eq]; try contradiction;
    intros H; try reflexivity.
  destruct u as [b| | |]; cbn [divide]; try reflexivity.
  rewrite (Qcompare_comp _ _ H 0 0 (Qeq_refl 0)).
  rewrite (round53_comp (x / b) (x' / b)) by (rewrite H; reflexivity).
  reflexivity.
Qed.

(** A zero numerator gives a zero quotient, or [nan] over a zero total. *)
Lemma divide_zero_num (u : float64) :
  divide (Fin 0) u = NaN \/ float64_eq (divide (Fin 0) u) (Fin 0).
Proof.
  destruct u as [b| | |]; cbn [divide]; auto; try (right; reflexivity).
  destruct (Qeq_bool b 0); [left; reflexivity|].
  right. rewrite round53_zero; [reflexivity|].
  unfold Qdiv. apply Qmult_0_l.
Qed.

Lemma cumsum_from_nth_0 (acc : float64) (a : list Q) :
  (0 < length a)%nat ->
  nth 0 (cumsum_from acc a) NaN = fadd acc (cast (nth 0 a 0)).
Proof. destruct a; cbn [length]; [lia|reflexivity]. Qed.

Lemma cumsum_from_nth_S (acc : float64) (a : list Q) (i : nat) :
  (S i < length a)%nat ->
  nth (S i) (cumsum_from acc a) NaN
  = fadd (nth i (cumsum_from acc a) NaN) (cast (nth (S i) a 0)).
Proof.
  revert acc i. induction a as [|x a IH]; intros acc i Hi; cbn [length] in Hi;
    [lia|].
  destruct i as [|i].
  - cbn [cumsum_from nth]. apply cumsum_from_nth_0. lia.
  - change (nth (S i) (cumsum_from (fadd acc (cast x)) a) NaN
            = fadd (nth i (cumsum_from (fadd acc (cast x)) a) NaN)
                   (cast (nth (S i) a 0))).
    apply IH. lia.
Qed.

(** Each running sum is the previous one plus the next weight. *)
Lemma cumsum_nth_S (a : list Q) (i : nat) :
  (S i < length a)%nat ->
  nth (S i) (cumsum a) NaN = fadd (nth i (cumsum a) NaN) (cast (nth (S i) a 0)).
Proof.
  destruct a as [|x a]; cbn [length]; [lia|]. intros Hi.
  destruct i as [|i].
  - cbn [cumsum nth]. apply cumsum_from_nth_0. lia.
  - change (nth (S i) (cumsum_from (cast x) a) NaN
            = fadd (nth i (cumsum_from (cast x) a) NaN) (cast (nth (S i) a 0))).
    apply cumsum_from_nth_S. lia.
Qed.

Lemma cumsum_nth_0 (a : list Q) :
  (0 < length a)%nat -> nth 0 (cumsum a) NaN = cast (nth 0 a 0).
Proof. destruct a; cbn [length]; [lia|reflexivity]. Qed.

Lemma cumulative_weights_nth (weights : list Q) (i : nat) :
  (i < length weights)%nat ->
  nth i (cumulative_weights weights) NaN
  = divide (nth i (cumsum weights) NaN) (sum weights).
Proof.
  intros Hi. unfold cumulative_weights. apply nth_map_NaN.
  rewrite cumsum_length. exact Hi.
Qed.

(** With weights given as doubles, one of them positive, the total is not
    zero. *)
Lemma sum_nonzero (weights : list Q) :
  valid_weights weights -> Forall is_double weights ->
  ~ float64_eq (sum weights) (Fin 0).
Proof.
  intros (_ & Hnn & Hex) Hd Hz.
  destruct (sum_dominates weights Hnn) as [_ Du].
  apply Exists_exists in Hex. destruct Hex as (x & Hin & Hx).
  rewrite Forall_forall in Du, Hd.
  pose proof (fle_comp _ _ _ _ (Hd x Hin) Hz (Du x Hin)) as H.
  apply fle_Fin in H. lra.
Qed.

(** A zero-weight item can only be hit at position 0 by a draw equal to 0. *)
Lemma draw_index_zero_weight (weights : list Q) (t x : Q) :
  valid_weights weights -> Forall is_double weights -> 0 <= t ->
  nth_error weights (draw_index weights t) = Some x -> x == 0 ->
  draw_index weights t = 0%nat /\ t == 0.
Proof.
  intros Hv Hd Ht Hx Hx0. pose proof Hv as (Hlen & Hnn & _).
  destruct (draw_index_spec weights Hnn t) as (_ & Hbelow & Habove).
  assert (Hlt : (draw_index weights t < length weights)%nat)
    by (apply nth_error_Some; congruence).
  assert (Hnx : nth (draw_index weights t) weights 0 = x)
    by (apply nth_error_nth; exact Hx).
  specialize (Habove _ (conj (Nat.le_refl _) Hlt)). unfold before_key in Habove.
  rewrite cumulative_weights_nth in Habove by exact Hlt.
  destruct (draw_index weights t) as [|i] eqn:E.
  - split; [reflexivity|].
    rewrite cumsum_nth_0, Hnx in Habove by lia.
    unfold cast in Habove. rewrite (round53_zero x Hx0) in Habove.
    pose proof (sum_nonzero weights Hv Hd) as Hnz.
    destruct (sum_dominates weights Hnn) as [Nu _].
    destruct (sum weights) as [q| | |]; cbn [fnonneg] in Nu; try contradiction.
    + cbn [float64_eq] in Hnz. cbn [divide] in Habove.
      destruct (Qeq_bool q 0) eqn:Eq0;
        [apply Qeq_bool_iff in Eq0; contradiction|].
      rewrite round53_zero in Habove by (unfold Qdiv; apply Qmult_0_l).
      apply less_Fin_ge in Habove. lra.
    + cbn [divide] in Habove. apply less_Fin_ge in Habove. lra.
  - exfalso. specialize (Hbelow i (Nat.lt_succ_diag_r i)).
    unfold before_key in Hbelow.
    rewrite cumulative_weights_nth in Hbelow by lia.
    rewrite cumsum_nth_S, Hnx in Habove by exact Hlt.
    unfold cast in Habove. rewrite (round53_zero x Hx0) in Habove.
    destruct (cumsum_facts weights Hnn) as [Fc _].
    assert (Hc : fnonneg (nth i (cumsum weights) NaN)).
    { rewrite Forall_forall in Fc. apply Fc, nth_In.
      rewrite cumsum_length. lia. }
    rewrite (divide_comp_l _ _ (sum weights) (fadd_0_r _ Hc)) in Habove.
    congruence.
Qed.
(** ** The rounding error of the sums and of the quotient *)

Lemma Fin_inj (a b : Q) : Fin a = Fin b -> a = b.
Proof. intros H. congruence. Qed.

Lemma eps_pos : 0 < eps.
Proof. apply pow2_pos. Qed.

Lemma eps_small : eps <= 1 # 2.
Proof. unfold eps. vm_compute. discriminate. Qed.

(** Every double is a multiple of the smallest subnormal. *)
Lemma double_grid (a : Q) :
  0 <= a -> is_double a -> exists z, a * 2 ^ 1074 == inject_Z z.
Proof.
  intros H0 Hd. destruct (Qle_lt_or_eq _ _ H0) as [Hpos|Hz].
  - unfold is_double in Hd. rewrite round53_pos in Hd by exact Hpos.
    destruct (round_pos_cases a) as [[E _]|[E _]]; rewrite E in Hd;
      cbn [float64_eq] in Hd; [contradiction|].
    pose proof (Qred_correct (rnd_val a)) as Er.
    assert (Ea : rnd_val a == a) by lra. clear Hd Er E.
    rewrite rnd_val_eq in Ea.
    pose proof (rnd_e_min a) as He. cbv zeta in He.
    set (e := Z.max (ilog2 a) emin) in *.
    set (m := round_half_even (a * 2 ^ (52 - e))) in *.
    exists (m * 2 ^ (e + 1022))%Z.
    rewrite inject_Z_mult, pow2_Z by (unfold emin in He; lia).
    rewrite <- Ea, <- Qmult_assoc, <- pow2_add.
    replace (e - 52 + 1074)%Z with (e + 1022)%Z by lia. reflexivity.
  - exists 0%Z. rewrite <- Hz. reflexivity.
Qed.

(** In the normal range rounding moves a value by at most [eps] of it. *)
Lemma rnd_val_rel_err (q : Q) :
  2 ^ emin <= q -> q * (1 - eps) <= rnd_val q /\ rnd_val q <= q * (1 + eps).
Proof.
  intros Hn. assert (Hpos : 0 < q).
  { apply Qlt_le_trans with (2 ^ emin); [apply pow2_pos|exact Hn]. }
  destruct (ilog2_spec q Hpos) as [Hlo Hhi].
  assert (He : (emin <= ilog2 q)%Z).
  { assert (H : (emin < ilog2 q + 1)%Z); [|lia].
    apply pow2_lt_inv. apply Qle_lt_trans with q; assumption. }
  pose proof (rnd_val_err q) as [H1 H2]. cbv zeta in H1, H2.
  rewrite Z.max_l in H1, H2 by exact He.
  assert (E : 2 ^ (ilog2 q - 53) == 2 ^ ilog2 q * eps).
  { unfold eps. rewrite <- pow2_add. reflexivity. }
  rewrite E in H1, H2. pose proof eps_pos as Hp.
  generalize dependent (2 ^ ilog2 q). generalize dependent (rnd_val q).
  intros. split; nra.
Qed.

(** Below the normal range the sum of two doubles is a double. *)
Lemma rnd_val_subnormal_sum (a b : Q) :
  0 <= a -> is_double a -> 0 <= b -> is_double b ->
  0 < a + b -> a + b < 2 ^ emin -> rnd_val (a + b) == a + b.
Proof.
  intros Ha Da Hb Db Hpos Hsub.
  destruct (double_grid a Ha Da) as [za Ea].
  destruct (double_grid b Hb Db) as [zb Eb].
  destruct (ilog2_spec (a + b) Hpos) as [Hlo _].
  assert (He : (ilog2 (a + b) < emin)%Z).
  { apply pow2_lt_inv. apply Qle_lt_trans with (a + b); assumption. }
  apply (rnd_val_exact (a + b) (za + zb)).
  rewrite Z.max_r by lia. change (52 - emin)%Z with 1074%Z.
  rewrite inject_Z_plus, <- Ea, <- Eb. ring.
Qed.

(** Adding two non-negative doubles: the result, when finite, is a double
    within [eps] of the exact sum. *)
Lemma fadd_rel_err (a b : Q) :
  0 <= a -> is_double a -> 0 <= b -> is_double b ->
  round53 (a + b) = PInf \/
  exists x, round53 (a + b) = Fin x /\ 0 <= x /\ is_double x /\
            (a + b) * (1 - eps) <= x /\ x <= (a + b) * (1 + eps).
Proof.
  intros Ha Da Hb Db. pose proof eps_pos as Hp. pose proof eps_small as Hs.
  assert (H0 : 0 <= a + b) by lra.
  destruct (round53_nonneg_cases (a + b) H0) as [E|(x & E & Hx & Dx)];
    [now left|right].
  exists x. split; [exact E|]. split; [exact Hx|]. split; [exact Dx|].
  destruct (Qle_lt_or_eq _ _ H0) as [Hpos|Hz].
  - rewrite round53_pos in E by exact Hpos.
    destruct (round_pos_cases (a + b)) as [[E' _]|[E' _]]; rewrite E' in E;
      [discriminate|].
    apply Fin_inj in E. pose proof (Qred_correct (rnd_val (a + b))) as Er.
    rewrite E in Er.
    destruct (Qlt_le_dec (a + b) (2 ^ emin)) as [Hsub|Hn].
    + pose proof (rnd_val_subnormal_sum a b Ha Da Hb Db Hpos Hsub) as Ex.
      split; nra.
    + destruct (rnd_val_rel_err (a + b) Hn) as [H1 H2]. split; lra.
  - rewrite round53_zero in E by (now symmetry). apply Fin_inj in E.
    rewrite <- E, <- Hz. split; nra.
Qed.

(** ** Sums of non-negative doubles stay close to the exact sum *)

Lemma qlen_app {A : Type} (l1 l2 : list A) :
  qlen (l1 ++ l2) == qlen l1 + qlen l2.
Proof.
  unfold qlen. rewrite length_app, Nat2Z.inj_add, inject_Z_plus. reflexivity.
Qed.

Lemma qlen_cons {A : Type} (x : A) (l : list A) : 1 <= qlen (x :: l).
Proof.
  unfold qlen. change 1 with (inject_Z 1). rewrite <- Zle_Qle.
  cbn [length]. lia.
Qed.

Lemma qlen_perm {A : Type} (l l' : list A) :
  Permutation l l' -> qlen l = qlen l'.
Proof. intros H. unfold qlen. now rewrite (Permutation_length H). Qed.

Lemma exact_total_cons (x : float64) (l : list float64) :
  exact_total (x :: l) = fvalue x + exact_total l.
Proof. reflexivity. Qed.

Lemma exact_total_app (l1 l2 : list float64) :
  exact_total (l1 ++ l2) == exact_total l1 + exact_total l2.
Proof.
  induction l1 as [|x l1 IH].
  - change (exact_total []) with 0. cbn [app]. ring.
  - cbn [app]. rewrite !exact_total_cons, IH. ring.
Qed.

Lemma exact_total_perm (l l' : list float64) :
  Permutation l l' -> exact_total l == exact_total l'.
Proof.
  induction 1 as [|x l l' _ IH|x y l|l l' l'' _ IH1 _ IH2].
  - reflexivity.
  - rewrite !exact_total_cons, IH. reflexivity.
  - rewrite !exact_total_cons. ring.
  - now rewrite IH1.
Qed.

Lemma exact_total_nonneg (l : list float64) :
  Forall fin_nonneg l -> 0 <= exact_total l.
Proof.
  induction 1 as [|x l (q & -> & Hq & _) _ IH].
  - apply Qle_refl.
  - rewrite exact_total_cons. cbn [fvalue]. lra.
Qed.

Lemma is_double_comp (a b : Q) : a == b -> is_double a -> is_double b.
Proof.
  unfold is_double. intros E H. rewrite <- (round53_comp a b E).
  apply float64_eq_trans with (Fin a); [exact H|exact E].
Qed.

Lemma close_comp (k T x x' : Q) : x == x' -> close k T x -> close k T x'.
Proof. unfold close. intros E [H1 H2]. rewrite <- E. now split. Qed.

Lemma close_weaken (k k' T x : Q) :
  0 <= T -> 0 <= x -> k <= k' -> close k T x -> close k' T x.
Proof.
  unfold close. intros HT Hx Hk [H1 H2]. pose proof eps_pos as Hp.
  assert (P : 0 <= (k' - k) * eps) by nra. split; nra.
Qed.

(** One rounded addition costs one more [eps]. *)
Lemma close_step (n1 n2 T1 T2 x1 x2 x : Q) :
  1 <= n1 -> 1 <= n2 -> 0 <= T1 -> 0 <= T2 -> 0 <= x1 -> 0 <= x2 ->
  close n1 T1 x1 -> close n2 T2 x2 ->
  (x1 + x2) * (1 - eps) <= x -> x <= (x1 + x2) * (1 + eps) ->
  close (n1 + n2) (T1 + T2) x.
Proof.
  unfold close. intros Hn1 Hn2 HT1 HT2 Hx1 Hx2 [L1 U1] [L2 U2] Lx Ux.
  pose proof eps_pos as Hp. pose proof eps_small as Hs.
  generalize dependent eps. intros e L1 U1 L2 U2 Lx Ux Hp Hs.
  assert (Hx : 0 <= x) by nra.
  split.
  - assert (A1 : T1 * (1 - (n1 + n2) * e) <= T1 * (1 - n1 * e) * (1 - e)).
    { assert (0 <= T1 * ((n2 - 1) * e + n1 * e * e)) by
          (apply Qmult_le_0_compat; [exact HT1|nra]). nra. }
    assert (A2 : T2 * (1 - (n1 + n2) * e) <= T2 * (1 - n2 * e) * (1 - e)).
    { assert (0 <= T2 * ((n1 - 1) * e + n2 * e * e)) by
          (apply Qmult_le_0_compat; [exact HT2|nra]). nra. }
    assert (B1 : T1 * (1 - n1 * e) * (1 - e) <= x1 * (1 - e)) by nra.
    assert (B2 : T2 * (1 - n2 * e) * (1 - e) <= x2 * (1 - e)) by nra.
    nra.
  - destruct (Qlt_le_dec 0 (1 - (n1 + n2) * e)) as [D|D]; [|nra].
    assert (A1 : x1 * ((1 + e) * (1 - (n1 + n2) * e)) <= x1 * (1 - n1 * e)).
    { assert (0 <= x1 * ((n2 - 1) * e + (n1 + n2) * e * e)) by
          (apply Qmult_le_0_compat; [exact Hx1|nra]). nra. }
    assert (A2 : x2 * ((1 + e) * (1 - (n1 + n2) * e)) <= x2 * (1 - n2 * e)).
    { assert (0 <= x2 * ((n1 - 1) * e + (n1 + n2) * e * e)) by
          (apply Qmult_le_0_compat; [exact Hx2|nra]). nra. }
    assert (B : x * (1 - (n1 + n2) * e)
                <= (x1 + x2) * (1 + e) * (1 - (n1 + n2) * e)) by nra.
    nra.
Qed.

Lemma fadd_PInf_l (y : float64) : fnonneg y -> fadd PInf y = PInf.
Proof. destruct y; cbn [fnonneg fadd]; intros H; now try contradiction. Qed.

Lemma fadd_PInf_r (x : float64) : fnonneg x -> fadd x PInf = PInf.
Proof. destruct x; cbn [fnonneg fadd]; intros H; now try contradiction. Qed.

(** Adding a zero changes nothing. *)
Lemma fadd_zero_l (x1 x2 : Q) :
  x1 == 0 -> 0 <= x2 -> is_double x2 ->
  exists x, fadd (Fin x1) (Fin x2) = Fin x /\ x == x2.
Proof.
  intros E H2 D2.
  rewrite (fadd_comp (Fin x1) (Fin 0) (Fin x2) (Fin x2) E
                     (float64_eq_refl _)).
  pose proof (fadd_0_l (Fin x2) (conj H2 D2)) as H.
  destruct (fadd (Fin 0) (Fin x2)) as [x| | |]; cbn [float64_eq] in H;
    try contradiction.
  exists x. now split.
Qed.

Lemma fadd_zero_r (x1 x2 : Q) :
  x2 == 0 -> 0 <= x1 -> is_double x1 ->
  exists x, fadd (Fin x1) (Fin x2) = Fin x /\ x == x1.
Proof.
  intros E H1 D1.
  rewrite (fadd_comp (Fin x1) (Fin x1) (Fin x2) (Fin 0)
                     (float64_eq_refl _) E).
  pose proof (fadd_0_r (Fin x1) (conj H1 D1)) as H.
  destruct (fadd (Fin x1) (Fin 0)) as [x| | |]; cbn [float64_eq] in H;
    try contradiction.
  exists x. now split.
Qed.

(** Whatever the order of the additions, the sum of [n] non-negative doubles
    is [+inf] or a double within [n] times [eps] of the exact sum. *)
Lemma sums_error (l : list float64) (v : float64) :
  sums l v -> Forall fin_nonneg l ->
  v = PInf \/
  exists x, v = Fin x /\ 0 <= x /\ is_double x /\
            close (qlen l) (exact_total l) x.
Proof.
  induction 1 as [|x|l1 l2 v1 v2 _ IH1 _ IH2|l l' v Hp _ IH]; intros Hl.
  - right. exists 0. split; [reflexivity|]. split; [apply Qle_refl|].
    split; [apply is_double_0|]. unfold close, qlen.
    cbn [exact_total fold_right length]. split; vm_compute; discriminate.
  - right. inversion Hl as [|? ? (q & -> & Hq & Dq) _]; subst.
    exists q. split; [reflexivity|]. split; [exact Hq|]. split; [exact Dq|].
    pose proof eps_pos as Hp. unfold close, qlen.
    cbn [exact_total fold_right fvalue length].
    change (inject_Z (Z.of_nat 1)) with 1. split; nra.
  - apply Forall_app in Hl. destruct Hl as [Hl1 Hl2].
    pose proof (exact_total_nonneg l1 Hl1) as HT1.
    pose proof (exact_total_nonneg l2 Hl2) as HT2.
    destruct (IH1 Hl1) as [->|(x1 & -> & Hx1 & D1 & C1)].
    { left. apply fadd_PInf_l.
      destruct (IH2 Hl2) as [->|(x2 & -> & Hx2 & D2 & _)]; simpl; auto. }
    destruct (IH2 Hl2) as [->|(x2 & -> & Hx2 & D2 & C2)].
    { left. apply fadd_PInf_r. simpl. auto. }
    destruct l1 as [|a1 l1].
    { right. cbn [app].
      assert (E : x1 == 0).
      { destruct C1 as [_ U]. unfold qlen in U. cbn [exact_total fold_right
          length] in U. change (inject_Z (Z.of_nat 0)) with 0 in U. lra. }
      destruct (fadd_zero_l x1 x2 E Hx2 D2) as (x & -> & Ex).
      exists x. split; [reflexivity|]. symmetry in Ex.
      split; [lra|]. split; [apply (is_double_comp x2 x Ex D2)|].
      apply (close_comp _ _ x2 x Ex C2). }
    destruct l2 as [|a2 l2].
    { right. rewrite app_nil_r.
      assert (E : x2 == 0).
      { destruct C2 as [_ U]. unfold qlen in U. cbn [exact_total fold_right
          length] in U. change (inject_Z (Z.of_nat 0)) with 0 in U. lra. }
      destruct (fadd_zero_r x1 x2 E Hx1 D1) as (x & -> & Ex).
      exists x. split; [reflexivity|]. symmetry in Ex.
      split; [lra|]. split; [apply (is_double_comp x1 x Ex D1)|].
      apply (close_comp _ _ x1 x Ex C1). }
    cbn [fadd].
    destruct (fadd_rel_err x1 x2 Hx1 D1 Hx2 D2)
      as [->|(x & -> & Hx & Dx & Lx & Ux)]; [now left|right].
    exists x. split; [reflexivity|]. split; [exact Hx|]. split; [exact Dx|].
    pose proof (close_step _ _ _ _ x1 x2 x (qlen_cons a1 l1) (qlen_cons a2 l2)
                           HT1 HT2 Hx1 Hx2 C1 C2 Lx Ux) as C.
    unfold close in *. rewrite qlen_app, exact_total_app. exact C.
  - assert (Hl' : Forall fin_nonneg l).
    { rewrite Forall_forall in *. intros x Hx. apply Hl.
      eapply Permutation_in; [exact Hp|exact Hx]. }
    destruct (IH Hl') as [->|(x & -> & Hx & Dx & C)]; [now left|right].
    exists x. split; [reflexivity|]. split; [exact Hx|]. split; [exact Dx|].
    unfold close in *.
    rewrite <- (qlen_perm l l' Hp), <- (exact_total_perm l l' Hp). exact C.
Qed.

(** ** The cumulative weights of doubles that do not overflow *)

Lemma last_as_nth {A : Type} (l : list A) (d : A) :
  last l d = nth (length l - 1) l d.
Proof.
  induction l as [|x l IH]; [reflexivity|].
  destruct l as [|y l]; [reflexivity|].
  change (last (x :: y :: l) d) with (last (y :: l) d). rewrite IH.
  simpl. now rewrite Nat.sub_0_r.
Qed.

Lemma cast_fin_nonneg (x : Q) : 0 <= x -> is_double x -> fin_nonneg (cast x).
Proof.
  intros H0 D. unfold cast. pose proof D as D'. unfold is_double in D'.
  destruct (round53 x) as [q| | |] eqn:E; cbn [float64_eq] in D';
    try contradiction.
  exists q. split; [reflexivity|]. split; [lra|].
  apply (is_double_comp x q); [now symmetry|exact D].
Qed.

Lemma casts_fin_nonneg (a : list Q) :
  Forall (fun x => 0 <= x) a -> Forall is_double a ->
  Forall fin_nonneg (map cast a).
Proof.
  induction a as [|x a IH]; intros Hn Hd; [constructor|].
  inversion Hn; inversion Hd; subst. cbn [map]. constructor.
  - now apply cast_fin_nonneg.
  - now apply IH.
Qed.

(** The last running sum adds up every weight. *)
Lemma cumsum_last_sums (a : list Q) :
  a <> [] -> sums (map cast a) (last (cumsum a) NaN).
Proof.
  intros Hne. rewrite last_as_nth, cumsum_length.
  assert (Hlen : (0 < length a)%nat).
  { destruct a; [congruence|cbn [length]; lia]. }
  pose proof (cumsum_sums a (length a - 1) (nth (length a - 1) (cumsum a) NaN))
    as H.
  replace (S (length a - 1)) with (length a) in H by lia.
  rewrite firstn_all in H. apply H.
  apply nth_error_nth'. rewrite cumsum_length. lia.
Qed.

Lemma eps_scale : 2 ^ 52 * eps == 1 # 2.
Proof. unfold eps. rewrite <- pow2_add. reflexivity. Qed.

Lemma qlen_bound {A : Type} (l : list A) :
  (Z.of_nat (length l) < 2 ^ 52)%Z ->
  0 <= qlen l /\ qlen l * eps <= (1 # 2) - eps.
Proof.
  intros H. unfold qlen.
  assert (H0 : inject_Z 0 <= inject_Z (Z.of_nat (length l))).
  { rewrite <- Zle_Qle. lia. }
  assert (H1 : inject_Z (Z.of_nat (length l)) <= inject_Z (2 ^ 52 - 1)).
  { rewrite <- Zle_Qle. lia. }
  change (inject_Z 0) with 0 in H0.
  assert (E : inject_Z (2 ^ 52 - 1) == 2 ^ 52 - 1) by reflexivity.
  pose proof eps_scale as Es. pose proof eps_pos as Hp.
  split; [exact H0|]. rewrite E in H1.
  generalize dependent (inject_Z (Z.of_nat (length l))).
  generalize dependent (2 ^ 52). intros. nra.
Qed.

Lemma tol_qlen {A : Type} (l : list A) :
  tol (length l) == (2 * qlen l + 1) * eps.
Proof.
  unfold tol, qlen. rewrite inject_Z_plus, inject_Z_mult. reflexivity.
Qed.

(** The quotient of two values close to the same total is close to 1. *)
Lemma quotient_near_one (k T c s r : Q) :
  0 <= k -> k * eps <= (1 # 2) - eps ->
  close k T s -> close k T c -> 0 < s -> r * s == c ->
  (1 - k * eps) * (1 - k * eps) <= r /\
  r * ((1 - k * eps) * (1 - k * eps)) <= 1.
Proof.
  unfold close. intros Hk Hke [Ls Us] [Lc Uc] Hs Er.
  pose proof eps_pos as Hp. set (d := 1 - k * eps) in *.
  assert (Hd : 1 # 2 <= d) by (unfold d; lra).
  assert (A1 : s * (d * d) <= c) by nra.
  assert (A2 : c * (d * d) <= s) by nra.
  rewrite <- Er in A1, A2. split.
  - assert (P : 0 <= (r - d * d) * s) by nra.
    destruct (Qlt_le_dec r (d * d)) as [Hlt|]; [|assumption].
    exfalso. assert (0 < (d * d - r) * s) by (apply Qmult_lt_0_compat; lra).
    nra.
  - assert (P : 0 <= (1 - r * (d * d)) * s) by nra.
    destruct (Qlt_le_dec 1 (r * (d * d))) as [Hlt|]; [|assumption].
    exfalso.
    assert (0 < (r * (d * d) - 1) * s) by (apply Qmult_lt_0_compat; lra).
    nra.
Qed.

(** Rounding such a quotient leaves it within [2 k + 1] times [eps] of 1. *)
Lemma round_quotient (k r : Q) :
  0 <= k -> k * eps <= (1 # 2) - eps ->
  (1 - k * eps) * (1 - k * eps) <= r ->
  r * ((1 - k * eps) * (1 - k * eps)) <= 1 ->
  exists x, round53 r = Fin x /\
            1 - (2 * k + 1) * eps <= x /\ x * (1 - (2 * k + 1) * eps) <= 1.
Proof.
  intros Hk Hke Lr Ur. pose proof eps_pos as Hp. pose proof eps_small as Hs.
  set (d := 1 - k * eps) in *.
  assert (Hd : 1 # 2 <= d) by (unfold d; lra).
  assert (Hd1 : d <= 1) by (unfold d; nra).
  assert (Hdd : 1 # 4 <= d * d) by nra.
  assert (Hr4 : r <= 4) by nra.
  assert (Hn : 2 ^ emin <= r).
  { apply Qle_trans with (1 # 4); [|lra]. vm_compute. discriminate. }
  assert (Hpos : 0 < r) by lra.
  destruct (rnd_val_rel_err r Hn) as [L U].
  rewrite round53_pos by exact Hpos.
  destruct (round_pos_cases r) as [[_ Hbig]|[-> _]].
  { exfalso. assert (H6 : rnd_val r <= 6) by nra.
    assert (H : 6 < 2 ^ 1024) by (vm_compute; reflexivity). lra. }
  exists (Qred (rnd_val r)). split; [reflexivity|].
  pose proof (Qred_correct (rnd_val r)) as Er.
  generalize dependent (Qred (rnd_val r)). intros x Ex.
  generalize dependent (rnd_val r). intros v L U Ex.
  assert (Ed : d * d == 1 - 2 * k * eps + k * eps * (k * eps))
    by (unfold d; ring).
  assert (Hke2 : 0 <= k * eps * (k * eps)) by nra.
  assert (Hke0 : 0 <= k * eps) by nra.
  assert (D1 : 1 - 2 * k * eps <= d * d) by lra.
  assert (D0 : 0 <= 1 - 2 * k * eps) by lra.
  split.
  - assert (A : (1 - 2 * k * eps) * (1 - eps) <= r * (1 - eps)) by nra.
    assert (B : 1 - (2 * k + 1) * eps <= (1 - 2 * k * eps) * (1 - eps)) by nra.
    lra.
  - assert (T0 : 0 <= 1 - (2 * k + 1) * eps) by lra.
    assert (A : x * (1 - (2 * k + 1) * eps)
                <= r * (1 + eps) * (1 - (2 * k + 1) * eps)) by nra.
    assert (B : (1 + eps) * (1 - (2 * k + 1) * eps) <= 1 - 2 * k * eps) by nra.
    assert (C : r * ((1 + eps) * (1 - (2 * k + 1) * eps))
                <= r * (1 - 2 * k * eps)) by nra.
    assert (D : r * (1 - 2 * k * eps) <= r * (d * d)) by nra.
    lra.
Qed.

Lemma divide_Fin_Fin (a b : Q) :
  ~ b == 0 -> divide (Fin a) (Fin b) = round53 (a / b).
Proof.
  intros Hb. cbn [divide].
  destruct (Qeq_bool b 0) eqn:E; [|reflexivity].
  apply Qeq_bool_iff in E. contradiction.
Qed.

Lemma fle_Fin_r (x : float64) (b : Q) :
  fnonneg x -> fle x (Fin b) -> exists a, x = Fin a /\ 0 <= a <= b.
Proof.
  destruct x as [a| | |]; cbn [fnonneg]; intros H Hle; try contradiction.
  - exists a. split; [reflexivity|]. apply fle_Fin in Hle. lra.
  - unfold fle in Hle. cbn [less] in Hle. discriminate Hle.
Qed.

Lemma map_Fin_fvalue (l : list float64) :
  Forall finite l -> l = map Fin (map fvalue l).
Proof.
  induction 1 as [|x l [q ->] _ IH]; [reflexivity|].
  cbn [map fvalue]. now rewrite <- IH.
Qed.

Section FiniteTotals.

Variable weights : list Q.
Hypothesis weights_valid : valid_weights weights.
Hypothesis weights_doubles : Forall is_double weights.
Hypothesis weights_count : (Z.of_nat (length weights) < 2 ^ 52)%Z.
Variables s c : Q.
Hypothesis total_finite : sum weights = Fin s.
Hypothesis running_finite : last (cumsum weights) NaN = Fin c.

Lemma valid_nonneg : Forall (fun x => 0 <= x) weights.
Proof. now destruct weights_valid as (_ & H & _). Qed.

Lemma weights_nonempty : weights <> [].
Proof.
  destruct weights_valid as (H & _). destruct weights; [simpl in H; lia|].
  discriminate.
Qed.

Lemma total_pos : 0 < s.
Proof.
  pose proof (sum_nonzero weights weights_valid weights_doubles) as Hnz.
  destruct (sum_dominates weights valid_nonneg) as [Hn _].
  rewrite total_finite in Hnz, Hn. cbn [fnonneg float64_eq] in Hnz, Hn.
  destruct Hn as [Hn _]. destruct (Qle_lt_or_eq _ _ Hn) as [H|H]; [exact H|].
  exfalso. apply Hnz. now symmetry.
Qed.

Lemma total_close :
  close (qlen weights) (exact_total (map cast weights)) s.
Proof.
  pose proof (sums_error _ _ (sum_sums weights)
                (casts_fin_nonneg weights valid_nonneg weights_doubles))
    as [E|(x & E & _ & _ & C)]; rewrite total_finite in E; [discriminate|].
  apply Fin_inj in E. subst x. unfold qlen in *.
  now rewrite length_map in C.
Qed.

Lemma running_close :
  0 <= c /\ close (qlen weights) (exact_total (map cast weights)) c.
Proof.
  pose proof (sums_error _ _ (cumsum_last_sums weights weights_nonempty)
                (casts_fin_nonneg weights valid_nonneg weights_doubles))
    as [E|(x & E & H0 & _ & C)]; rewrite running_finite in E; [discriminate|].
  apply Fin_inj in E. subst x. unfold qlen in *.
  rewrite length_map in C. now split.
Qed.

(** The last cumulative weight. *)
Lemma last_cumulative_weight :
  exists x,
    last (cumulative_weights weights) NaN = Fin x /\
    1 - tol (length weights) <= x /\ x * (1 - tol (length weights)) <= 1.
Proof.
  pose proof total_pos as Hs. pose proof total_close as Cs.
  destruct running_close as [Hc Cc].
  destruct (qlen_bound weights weights_count) as [Hk Hke].
  assert (Hs0 : ~ s == 0) by lra.
  assert (Er : c / s * s == c) by (field; exact Hs0).
  destruct (quotient_near_one _ _ c s (c / s) Hk Hke Cs Cc Hs Er) as [Lr Ur].
  destruct (round_quotient _ _ Hk Hke Lr Ur) as (x & Ex & Lx & Ux).
  exists x. rewrite tol_qlen. split; [|now split].
  unfold cumulative_weights.
  rewrite last_as_nth, length_map.
  change NaN with ((fun c0 => divide c0 (sum weights)) NaN) at 1.
  rewrite map_nth, <- last_as_nth, running_finite, total_finite.
  rewrite divide_Fin_Fin by exact Hs0. exact Ex.
Qed.

(** Every cumulative weight is finite. *)
Lemma cumulative_weights_finite : Forall finite (cumulative_weights weights).
Proof.
  pose proof total_pos as Hs. assert (Hs0 : ~ s == 0) by lra.
  destruct last_cumulative_weight as (x & Ex & _).
  destruct (cumsum_facts weights valid_nonneg) as [Hnn Hsorted].
  pose proof weights_nonempty as Hne.
  assert (Hlen : (0 < length weights)%nat).
  { destruct weights; [congruence|cbn [length]; lia]. }
  apply Forall_forall. intros y Hy.
  destruct (In_nth _ _ NaN Hy) as (i & Hi & <-).
  rewrite cumulative_weights_length in Hi.
  rewrite cumulative_weights_nth by exact Hi.
  assert (Hci : fnonneg (nth i (cumsum weights) NaN)).
  { rewrite Forall_forall in Hnn. apply Hnn. apply nth_In.
    rewrite cumsum_length. exact Hi. }
  assert (Hle : fle (nth i (cumsum weights) NaN) (Fin c)).
  { rewrite <- running_finite, last_as_nth. apply Hsorted.
    rewrite cumsum_length. lia. }
  destruct (fle_Fin_r _ _ Hci Hle) as (a & -> & Ha0 & Hac).
  rewrite total_finite, divide_Fin_Fin by exact Hs0.
  assert (Hq0 : 0 <= a / s).
  { apply Qle_shift_div_l; [exact Hs|]. lra. }
  assert (Hq : a / s <= c / s).
  { apply Qle_shift_div_l; [exact Hs|].
    assert (E : a / s * s == a) by (field; exact Hs0). lra. }
  pose proof (round53_mono _ _ Hq0 Hq) as Hm.
  unfold cumulative_weights in Ex.
  rewrite last_as_nth, length_map in Ex.
  change NaN with ((fun c0 => divide c0 (sum weights)) NaN) in Ex at 1.
  rewrite map_nth, <- last_as_nth, running_finite, total_finite in Ex.
  rewrite divide_Fin_Fin in Ex by exact Hs0. rewrite Ex in Hm.
  destruct (fle_Fin_r _ _ (round53_nonneg _ Hq0) Hm) as (r & -> & _).
  now exists r.
Qed.

End FiniteTotals.

(** Finite entries in the order of [less] never decrease. *)
Lemma fsorted_values (l : list float64) :
  Forall finite l -> fsorted l -> nondecreasing (map fvalue l).
Proof.
  intros Hf Hs i j Hij. rewrite length_map in Hij.
  change 0 with (fvalue NaN). rewrite !map_nth.
  pose proof (Hs i j Hij) as Hle. rewrite Forall_forall in Hf.
  assert (Hi : In (nth i l NaN) l) by (apply nth_In; lia).
  assert (Hj : In (nth j l NaN) l) by (apply nth_In; lia).
  destruct (Hf _ Hi) as [a Ea]. destruct (Hf _ Hj) as [b Eb].
  rewrite Ea, Eb in *. cbn [fvalue].
  apply fle_Fin in Hle. exact Hle.
Qed.

(** The index of a draw is one past the end exactly when the last cumulative
    weight sorts before the draw. *)
Lemma draw_index_past_end (weights : list Q) (t : Q) :
  valid_weights weights ->
  (draw_index weights t = length weights <->
   less (last (cumulative_weights weights) NaN) (Fin t) = true).
Proof.
  intros (Hlen & Hnn & _).
  destruct (draw_index_spec weights Hnn t) as (Hle & Hbelow & Habove).
  rewrite last_as_nth, cumulative_weights_length.
  fold (before_key (cumulative_weights weights) (Fin t) (length weights - 1)).
  split.
  - intros E. apply Hbelow. lia.
  - intros Hb.
    destruct (Nat.eq_dec (draw_index weights t) (length weights)) as [E|Hne];
      [exact E|].
    rewrite Habove in Hb by lia. discriminate Hb.
Qed.

(** Under the tolerance of the last cumulative weight, a draw is given one of
    the items. *)
Lemma draw_index_below_tolerance (weights : list Q) (t : Q) :
  valid_weights weights -> Forall is_double weights ->
  (Z.of_nat (length weights) < 2 ^ 52)%Z ->
  finite (sum weights) -> finite (last (cumsum weights) NaN) ->
  t <= 1 - tol (length weights) ->
  (draw_index weights t < length weights)%nat.
Proof.
  intros Hv Hd Hlen [s Hs] [c Hc] Ht. pose proof Hv as (_ & Hnn & _).
  destruct (draw_index_spec weights Hnn t) as (Hle & _).
  destruct (Nat.eq_dec (draw_index weights t) (length weights)) as [E|Hne];
    [|lia].
  exfalso. apply (draw_index_past_end weights t Hv) in E.
  destruct (last_cumulative_weight weights Hv Hd Hlen s c Hs Hc)
    as (x & Ex & Lx & _).
  rewrite Ex in E. apply less_Fin_lt in E. lra.
Qed.

(** ** Whole-number weights below 2^53 are added without error *)

Lemma ilog2_int_range (z : Z) :
  (1 <= z < 2 ^ 53)%Z -> (0 <= ilog2 (inject_Z z) <= 52)%Z.
Proof.
  intros [H1 H2].
  assert (Q1 : 1 <= inject_Z z).
  { change 1 with (inject_Z 1). rewrite <- Zle_Qle. exact H1. }
  assert (Q2 : inject_Z z < 2 ^ 53).
  { rewrite <- (pow2_Z 53) by lia. rewrite <- Zlt_Qlt. exact H2. }
  assert (Hpos : 0 < inject_Z z) by lra.
  destruct (ilog2_spec _ Hpos) as [Hlo Hhi]. split.
  - assert (H : (0 < ilog2 (inject_Z z) + 1)%Z); [|lia].
    apply pow2_lt_inv. change (2 ^ 0) with 1. lra.
  - assert (H : (ilog2 (inject_Z z) < 53)%Z); [|lia].
    apply pow2_lt_inv. lra.
Qed.

Lemma round53_int (q : Q) (z : Z) :
  q == inject_Z z -> (0 <= z < 2 ^ 53)%Z ->
  exists x, round53 q = Fin x /\ x == q.
Proof.
  intros E [H0 H2]. rewrite (round53_comp _ _ E).
  destruct (Z.eq_dec z 0) as [->|Hz].
  { exists 0. rewrite round53_zero by reflexivity. split; [reflexivity|].
    now symmetry. }
  assert (Hr : (1 <= z < 2 ^ 53)%Z) by lia.
  destruct (ilog2_int_range z Hr) as [L U].
  assert (Q1 : 1 <= inject_Z z).
  { change 1 with (inject_Z 1). rewrite <- Zle_Qle. lia. }
  assert (Q2 : inject_Z z < 2 ^ 53).
  { rewrite <- (pow2_Z 53) by lia. rewrite <- Zlt_Qlt. exact H2. }
  assert (Hpos : 0 < inject_Z z) by lra.
  assert (Ev : rnd_val (inject_Z z) == inject_Z z).
  { apply (rnd_val_exact (inject_Z z) (z * 2 ^ (52 - ilog2 (inject_Z z)))).
    rewrite Z.max_l by (unfold emin; lia).
    rewrite inject_Z_mult, pow2_Z by lia. reflexivity. }
  rewrite round53_pos by exact Hpos.
  destruct (round_pos_cases (inject_Z z)) as [[_ Hbig]|[-> _]].
  { exfalso. assert (H : 2 ^ 53 < 2 ^ 1024) by (apply pow2_lt; lia). lra. }
  exists (Qred (rnd_val (inject_Z z))). split; [reflexivity|].
  rewrite Qred_correct, Ev. now symmetry.
Qed.

Lemma is_double_int (q : Q) (z : Z) :
  q == inject_Z z -> (0 <= z < 2 ^ 53)%Z -> is_double q.
Proof.
  intros E Hz. destruct (round53_int q z E Hz) as (x & Ex & Hx).
  unfold is_double. rewrite Ex. exact Hx.
Qed.

Lemma total_cons (x : Q) (l : list Q) : total (x :: l) = x + total l.
Proof. reflexivity. Qed.

Lemma total_nonneg (l : list Q) : Forall (fun x => 0 <= x) l -> 0 <= total l.
Proof.
  induction 1 as [|x l Hx _ IH]; [apply Qle_refl|]. rewrite total_cons. lra.
Qed.

Lemma total_ge (l : list Q) (x : Q) :
  Forall (fun x => 0 <= x) l -> In x l -> x <= total l.
Proof.
  induction 1 as [|y l Hy Hl IH]; intros Hin; [contradiction|].
  rewrite total_cons. pose proof (total_nonneg l Hl) as Ht.
  destruct Hin as [->|Hin]; [lra|]. specialize (IH Hin). lra.
Qed.

Lemma total_integer (l : list Q) :
  Forall is_integer l -> is_integer (total l).
Proof.
  induction 1 as [|x l [z Ez] _ [t Et]]; [now exists 0%Z|].
  exists (z + t)%Z. rewrite total_cons, inject_Z_plus, Ez, Et. reflexivity.
Qed.

(** A non-negative whole number below 2^53, as an integer. *)
Lemma integer_below (q : Q) :
  is_integer q -> 0 <= q -> q < 2 ^ 53 ->
  exists z, q == inject_Z z /\ (0 <= z < 2 ^ 53)%Z.
Proof.
  intros [z E] H0 H2. exists z. split; [exact E|]. rewrite E in H0, H2.
  split.
  - rewrite Zle_Qle. exact H0.
  - rewrite Zlt_Qlt, pow2_Z by lia. exact H2.
Qed.

Lemma integers_doubles (l : list Q) :
  Forall (fun x => 0 <= x) l -> Forall is_integer l -> total l < 2 ^ 53 ->
  Forall is_double l.
Proof.
  intros Hn Hi Ht. apply Forall_forall. intros x Hx.
  rewrite Forall_forall in Hi. pose proof (total_ge l x Hn Hx) as Hle.
  rewrite Forall_forall in Hn.
  destruct (integer_below x (Hi x Hx) (Hn x Hx)) as (z & E & Hz); [lra|].
  exact (is_double_int x z E Hz).
Qed.

(** The doubles of the weights add up, in exact arithmetic, to their total. *)
Lemma exact_total_casts (l : list Q) :
  Forall (fun x => 0 <= x) l -> Forall is_double l ->
  exact_total (map cast l) == total l.
Proof.
  induction l as [|x l IH]; intros Hn Hd; [reflexivity|].
  inversion Hn; inversion Hd; subst. cbn [map].
  rewrite exact_total_cons, total_cons, IH by assumption.
  assert (D : float64_eq (cast x) (Fin x)) by assumption.
  destruct (cast x) as [q| | |]; cbn [float64_eq] in D; try contradiction.
  cbn [fvalue]. rewrite D. reflexivity.
Qed.

(** A finite double whose value is a whole number, zero or positive. *)
Lemma cast_integer (x : Q) :
  0 <= x -> is_double x -> is_integer x ->
  exists q, cast x = Fin q /\ 0 <= q /\ is_integer q.
Proof.
  intros H0 D [z E]. unfold is_double in D. unfold cast.
  destruct (round53 x) as [q| | |]; cbn [float64_eq] in D; try contradiction.
  exists q. split; [reflexivity|]. split; [lra|]. exists z. lra.
Qed.

Lemma casts_integers (l : list Q) :
  Forall (fun x => 0 <= x) l -> Forall is_double l -> Forall is_integer l ->
  Forall (fun x => exists q, x = Fin q /\ 0 <= q /\ is_integer q) (map cast l).
Proof.
  induction l as [|x l IH]; intros Hn Hd Hi; [constructor|].
  inversion Hn; inversion Hd; inversion Hi; subst. cbn [map]. constructor.
  - now apply cast_integer.
  - now apply IH.
Qed.

Lemma exact_total_integers (l : list float64) :
  Forall (fun x => exists q, x = Fin q /\ 0 <= q /\ is_integer q) l ->
  0 <= exact_total l /\ is_integer (exact_total l).
Proof.
  induction 1 as [|x l (q & -> & Hq & [z Ez]) _ [IH0 [t Et]]].
  - split; [apply Qle_refl|now exists 0%Z].
  - rewrite exact_total_cons. cbn [fvalue]. split; [lra|].
    exists (z + t)%Z. rewrite inject_Z_plus, Ez, Et. reflexivity.
Qed.

(** Whatever the order of the additions, whole numbers whose total is below
    2^53 are summed exactly. *)
Lemma sums_exact (l : list float64) (v : float64) :
  sums l v ->
  Forall (fun x => exists q, x = Fin q /\ 0 <= q /\ is_integer q) l ->
  exact_total l < 2 ^ 53 ->
  exists x, v = Fin x /\ x == exact_total l.
Proof.
  induction 1 as [|x|l1 l2 v1 v2 _ IH1 _ IH2|l l' v Hp _ IH]; intros Hl Ht.
  - exists 0. split; reflexivity.
  - inversion Hl as [|? ? (q & -> & _) _]; subst. exists q.
    split; [reflexivity|]. rewrite exact_total_cons. cbn [fvalue].
    change (exact_total []) with 0. ring.
  - apply Forall_app in Hl. destruct Hl as [Hl1 Hl2].
    destruct (exact_total_integers l1 Hl1) as [H1 [z1 E1]].
    destruct (exact_total_integers l2 Hl2) as [H2 [z2 E2]].
    rewrite exact_total_app in Ht.
    destruct (IH1 Hl1) as (x1 & -> & Ex1); [lra|].
    destruct (IH2 Hl2) as (x2 & -> & Ex2); [lra|].
    cbn [fadd].
    assert (Ei : is_integer (x1 + x2)).
    { exists (z1 + z2)%Z. rewrite inject_Z_plus, Ex1, Ex2, E1, E2.
      reflexivity. }
    destruct (integer_below (x1 + x2) Ei) as (z & Ez & Hz); [lra|lra|].
    destruct (round53_int (x1 + x2) z Ez Hz) as (x & -> & Ex).
    exists x. split; [reflexivity|]. rewrite exact_total_app. lra.
  - assert (Hl' : Forall (fun x => exists q, x = Fin q /\ 0 <= q /\
                                             is_integer q) l).
    { rewrite Forall_forall in *. intros x Hx. apply Hl.
      eapply Permutation_in; [exact Hp|exact Hx]. }
    pose proof (exact_total_perm l l' Hp) as Ep.
    destruct (IH Hl') as (x & -> & Ex); [lra|].
    exists x. split; [reflexivity|lra].
Qed.

Lemma round53_one (q : Q) : q == 1 -> round53 q = Fin 1.
Proof. intros E. rewrite (round53_comp _ _ E). vm_compute. reflexivity. Qed.

(** With whole-number weights whose total is below 2^53 the last cumulative
    weight is exactly 1. *)
Lemma integer_weights_last (weights : list Q) :
  valid_weights weights -> Forall is_integer weights ->
  total weights < 2 ^ 53 ->
  last (cumulative_weights weights) NaN = Fin 1.
Proof.
  intros Hv Hi Ht. pose proof Hv as (Hlen & Hnn & _).
  pose proof (integers_doubles weights Hnn Hi Ht) as Hd.
  pose proof (casts_integers weights Hnn Hd Hi) as Hc.
  pose proof (exact_total_casts weights Hnn Hd) as Et.
  assert (Hne : weights <> []).
  { destruct weights; [simpl in Hlen; lia|discriminate]. }
  destruct (sums_exact _ _ (sum_sums weights) Hc) as (s & Es & Hs); [lra|].
  destruct (sums_exact _ _ (cumsum_last_sums weights Hne) Hc)
    as (c & Ec & Hcv); [lra|].
  pose proof (total_pos weights Hv Hd s Es) as Hpos.
  assert (Hs0 : ~ s == 0) by lra.
  unfold cumulative_weights. rewrite last_as_nth, length_map.
  change NaN with ((fun c0 => divide c0 (sum weights)) NaN) at 1.
  rewrite map_nth, <- last_as_nth, Ec, Es.
  rewrite divide_Fin_Fin by exact Hs0. apply round53_one.
  rewrite Hcv, Hs, Et. field. lra.
Qed.

Lemma draw_index_integer_weights (weights : list Q) (t : Q) :
  valid_weights weights -> Forall is_integer weights ->
  total weights < 2 ^ 53 -> t <= 1 ->
  (draw_index weights t < length weights)%nat.
Proof.
  intros Hv Hi Ht Ht1. pose proof Hv as (_ & Hnn & _).
  destruct (draw_index_spec weights Hnn t) as (Hle & _).
  destruct (Nat.eq_dec (draw_index weights t) (length weights)) as [E|Hne];
    [|lia].
  exfalso. apply (draw_index_past_end weights t Hv) in E.
  rewrite (integer_weights_last weights Hv Hi Ht) in E.
  apply less_Fin_lt in E. lra.
Qed.

(** *** The weights of the cell *)

Lemma total_app (l1 l2 : list Q) : total (l1 ++ l2) == total l1 + total l2.
Proof.
  induction l1 as [|x l1 IH].
  - change (total []) with 0. cbn [app]. ring.
  - cbn [app]. rewrite !total_cons, IH. ring.
Qed.

Lemma linear_weights_integers (vals : Z) :
  Forall is_integer (linear_weights vals).
Proof.
  unfold linear_weights. apply Forall_map, Forall_forall. intros k _.
  now exists (k + 1)%Z.
Qed.

(** [1 + 2 + ... + m], twice. *)
Lemma linear_weights_total_nat (m : nat) :
  2 * total (map (fun k => inject_Z (k + 1)) (map Z.of_nat (seq 0 m)))
  == inject_Z (Z.of_nat m * (Z.of_nat m + 1)).
Proof.
  induction m as [|m IH]; [reflexivity|].
  rewrite seq_S, !map_app, total_app. cbn [map Nat.add].
  rewrite total_cons. change (total []) with 0.
  rewrite Qmult_plus_distr_r, IH.
  rewrite Nat2Z.inj_succ. unfold Z.succ.
  rewrite !inject_Z_mult, !inject_Z_plus. ring.
Qed.

Lemma linear_weights_total (vals : Z) :
  (0 <= vals)%Z ->
  2 * total (linear_weights vals) == inject_Z (vals * (vals + 1)).
Proof.
  intros H. unfold linear_weights, arange_int.
  rewrite linear_weights_total_nat, Z2Nat.id by exact H. reflexivity.
Qed.

Lemma linear_weights_total_small (vals : Z) :
  (0 <= vals)%Z -> (vals * (vals + 1) < 2 ^ 54)%Z ->
  total (linear_weights vals) < 2 ^ 53.
Proof.
  intros H0 Hb. pose proof (linear_weights_total vals H0) as E.
  assert (H : inject_Z (vals * (vals + 1)) < inject_Z (2 ^ 54))
    by (rewrite <- Zlt_Qlt; exact Hb).
  rewrite pow2_Z in H by lia.
  assert (E2 : 2 ^ 54 == 2 * 2 ^ 53) by (rewrite <- pow2_S; reflexivity).
  generalize dependent (2 ^ 54). generalize dependent (2 ^ 53).
  intros. lra.
Qed.

(** ** Fewer than eight weights: the total is the last running sum *)

Lemma pairwise_sum_short (fuel : nat) (a : list float64) :
  (length a < 8)%nat -> pairwise_sum fuel a = add_seq (Fin 0) a.
Proof.
  intros H. destruct fuel; cbn [pairwise_sum]; cbv zeta;
    destruct (Nat.ltb_spec (length a) 8); (reflexivity || lia).
Qed.

Lemma cumsum_from_last (acc : float64) (a : list Q) :
  last (acc :: cumsum_from acc a) NaN = add_seq acc (map cast a).
Proof.
  revert acc. induction a as [|x a IH]; intros acc; [reflexivity|].
  cbn [cumsum_from map]. unfold add_seq. cbn [fold_left].
  fold (add_seq (fadd acc (cast x)) (map cast a)). rewrite <- IH.
  reflexivity.
Qed.

Lemma add_seq_comp (acc acc' : float64) (l : list float64) :
  float64_eq acc acc' -> float64_eq (add_seq acc l) (add_seq acc' l).
Proof.
  intros E. destruct l as [|x l]; [exact E|].
  unfold add_seq. cbn [fold_left].
  rewrite (fadd_comp acc acc' x x E (float64_eq_refl x)).
  apply float64_eq_refl.
Qed.

Lemma add_seq_nonneg (acc : float64) (l : list float64) :
  fnonneg acc -> Forall fnonneg l -> fnonneg (add_seq acc l).
Proof.
  intros Ha Hl. revert acc Ha.
  induction Hl as [|x l Hx _ IH]; intros acc Ha; [exact Ha|].
  unfold add_seq. cbn [fold_left]. apply IH.
  now apply fadd_nonneg.
Qed.

(** Below eight items the total and the last running sum are the same
    double. *)
Lemma sum_short (a : list Q) :
  Forall (fun x => 0 <= x) a -> (length a < 8)%nat -> a <> [] ->
  float64_eq (sum a) (last (cumsum a) NaN).
Proof.
  intros Hn Hlen Hne. destruct a as [|x a]; [congruence|].
  inversion Hn as [|? ? Hx Ha]; subst.
  unfold sum. rewrite pairwise_sum_short by (now rewrite length_map).
  cbn [cumsum map]. rewrite cumsum_from_last.
  unfold add_seq at 1. cbn [fold_left].
  fold (add_seq (fadd (Fin 0) (cast x)) (map cast a)).
  pose proof (fnonneg_cast x Hx) as Hc.
  pose proof (casts_nonneg a Ha) as Hl.
  apply float64_eq_trans with (add_seq (fadd (Fin 0) (cast x)) (map cast a)).
  - apply fadd_0_l. apply add_seq_nonneg; [|exact Hl].
    apply fadd_nonneg; [|exact Hc]. split; [apply Qle_refl|apply is_double_0].
  - apply add_seq_comp. apply fadd_0_l. exact Hc.
Qed.

(** A double divided by itself is 1, unless it is zero or infinite. *)
Lemma divide_same (c s : float64) :
  fnonneg c -> float64_eq c s -> ~ float64_eq s (Fin 0) ->
  divide c s = Fin 1 \/ divide c s = NaN.
Proof.
  destruct c as [a| | |], s as [b| | |]; cbn [fnonneg float64_eq];
    intros Hc E Hz; try contradiction.
  - left. assert (Hb : ~ b == 0) by exact Hz.
    rewrite divide_Fin_Fin by exact Hb. apply round53_one.
    rewrite E. field. exact Hb.
  - right. reflexivity.
Qed.

Lemma cumulative_weights_last (weights : list Q) :
  last (cumulative_weights weights) NaN
  = divide (last (cumsum weights) NaN) (sum weights).
Proof.
  unfold cumulative_weights. rewrite last_as_nth, length_map.
  change (nth (length (cumsum weights) - 1)
              (map (fun c => divide c (sum weights)) (cumsum weights))
              ((fun c => divide c (sum weights)) NaN)
          = divide (last (cumsum weights) NaN) (sum weights)).
  now rewrite map_nth, <- last_as_nth.
Qed.

Lemma few_weights_last (weights : list Q) :
  valid_weights weights -> Forall is_double weights ->
  (length weights < 8)%nat ->
  last (cumulative_weights weights) NaN = Fin 1 \/
  last (cumulative_weights weights) NaN = NaN.
Proof.
  intros Hv Hd Hlen. pose proof Hv as (Hl & Hnn & _).
  assert (Hne : weights <> []).
  { destruct weights; [simpl in Hl; lia|discriminate]. }
  rewrite cumulative_weights_last. apply divide_same.
  - destruct (cumsum_facts weights Hnn) as [Hf _].
    rewrite Forall_forall in Hf. apply Hf. rewrite last_as_nth.
    apply nth_In. rewrite cumsum_length. lia.
  - apply float64_eq_sym. apply sum_short; assumption.
  - apply sum_nonzero; assumption.
Qed.

Lemma draw_index_few_weights (weights : list Q) (t : Q) :
  valid_weights weights -> Forall is_double weights ->
  (length weights < 8)%nat -> t <= 1 ->
  (draw_index weights t < length weights)%nat.
Proof.
  intros Hv Hd Hlen Ht. pose proof Hv as (_ & Hnn & _).
  destruct (draw_index_spec weights Hnn t) as (Hle & _).
  destruct (Nat.eq_dec (draw_index weights t) (length weights)) as [E|Hne];
    [|lia].
  exfalso. apply (draw_index_past_end weights t Hv) in E.
  destruct (few_weights_last weights Hv Hd Hlen) as [El|El]; rewrite El in E.
  - apply less_Fin_lt in E. lra.
  - discriminate E.
Qed.

(** ** The illustration cell *)

Lemma linear_weights_length (vals : Z) :
  length (linear_weights vals) = Z.to_nat vals.
Proof. unfold linear_weights, arange_int. now rewrite !length_map, length_seq. Qed.

Lemma linear_weights_pos (vals : Z) :
  Forall (fun x => 0 < x) (linear_weights vals).
Proof.
  unfold linear_weights, arange_int. apply Forall_map, Forall_map.
  apply Forall_forall. intros i _. simpl.
  change (inject_Z 0 < inject_Z (Z.of_nat i + 1)).
  rewrite <- Zlt_Qlt. lia.
Qed.

Lemma linear_weights_nonneg (vals : Z) :
  Forall (fun x => 0 <= x) (linear_weights vals).
Proof.
  eapply Forall_impl; [|apply linear_weights_pos].
  intros x Hx. apply Qlt_le_weak. exact Hx.
Qed.

Lemma linear_weights_valid (vals : Z) :
  (1 <= vals)%Z -> valid_weights (linear_weights vals).
Proof.
  intros Hv. split; [rewrite linear_weights_length; lia|].
  split; [apply linear_weights_nonneg|].
  pose proof (linear_weights_pos vals) as Hp.
  pose proof (linear_weights_length vals) as Hl.
  destruct (linear_weights vals) as [|x l]; [simpl in Hl; lia|].
  apply Exists_cons_hd. now inversion Hp.
Qed.

Lemma fold_left_min_spec (l : list nat) (x : nat) :
  In (fold_left Nat.min l x) (x :: l) /\
  Forall (fun y => (fold_left Nat.min l x <= y)%nat) (x :: l).
Proof.
  revert x. induction l as [|y l IH]; intros x; simpl.
  - split; [now left|]. repeat constructor.
  - destruct (IH (Nat.min x y)) as [Hin Hall]. simpl in Hin. split.
    + destruct Hin as [E|Hin]; [|now right; right].
      rewrite <- E. destruct (Nat.min_spec x y) as [[_ ->]|[_ ->]]; auto.
    + inversion Hall as [|? ? Hm Hl]; subst.
      constructor; [lia|]. constructor; [lia|exact Hl].
Qed.

Lemma fold_left_max_spec (l : list nat) (x : nat) :
  In (fold_left Nat.max l x) (x :: l) /\
  Forall (fun y => (y <= fold_left Nat.max l x)%nat) (x :: l).
Proof.
  revert x. induction l as [|y l IH]; intros x; simpl.
  - split; [now left|]. repeat constructor.
  - destruct (IH (Nat.max x y)) as [Hin Hall]. simpl in Hin. split.
    + destruct Hin as [E|Hin]; [|now right; right].
      rewrite <- E. destruct (Nat.max_spec x y) as [[_ ->]|[_ ->]]; auto.
    + inversion Hall as [|? ? Hm Hl]; subst.
      constructor; [lia|]. constructor; [lia|exact Hl].
Qed.

(** On a non-empty array both reductions succeed, on members of the array
    that bound it. *)
Lemma np_min_max_spec (a : list nat) :
  a <> [] ->
  exists lo hi,
    np_min a = inr lo /\ np_max a = inr hi /\
    In lo a /\ In hi a /\ Forall (fun x => (lo <= x <= hi)%nat) a.
Proof.
  destruct a as [|x l]; [congruence|]. intros _.
  destruct (fold_left_min_spec l x) as [Hmi Hma].
  destruct (fold_left_max_spec l x) as [HMi HMa].
  exists (fold_left Nat.min l x), (fold_left Nat.max l x).
  repeat split; try reflexivity; try assumption.
  rewrite Forall_forall in *. intros y Hy. split; [apply Hma|apply HMa]; exact Hy.
Qed.

(** The edges [np.arange(lo - 0.5, hi + 0.5, 1)] produces for integers
    [lo <= hi]: one per integer from [lo] to [hi], each half a unit below. *)
Lemma arange_step1_edges (lo hi : nat) :
  (lo <= hi)%nat ->
  arange_step1 (to_float lo - 0.5) (to_float hi + 0.5)
  = map (fun i => to_float lo - 0.5 + inject_Z (Z.of_nat i) * 1)
        (seq 0 (hi - lo + 1)).
Proof.
  intros Hle. unfold arange_step1. f_equal. f_equal.
  assert (E : (to_float hi + 0.5 - (to_float lo - 0.5)) / 1
              == inject_Z (Z.of_nat hi - Z.of_nat lo + 1)).
  { unfold to_float, Z.sub. rewrite !inject_Z_plus, inject_Z_opp.
    change (inject_Z 1) with 1. field. }
  rewrite (Qceiling_comp _ _ E), Qceiling_Z. lia.
Qed.

Lemma edge_value (lo i : nat) :
  to_float lo - 0.5 + inject_Z (Z.of_nat i) * 1 == to_float (lo + i) - 0.5.
Proof.
  unfold to_float. rewrite Nat2Z.inj_add, inject_Z_plus. ring.
Qed.

Lemma to_float_lt (a b : nat) : (a < b)%nat -> to_float a < to_float b.
Proof. intros H. unfold to_float. rewrite <- Zlt_Qlt. lia. Qed.

Lemma to_float_le (a b : nat) : (a <= b)%nat -> to_float a <= to_float b.
Proof. intros H. unfold to_float. rewrite <- Zle_Qle. lia. Qed.

Section IllustrationFacts.

Variable array_str : list nat -> string.

(** The cell once the call has returned its two arrays. *)
Lemma illustration_run (vals n : Z) (w : World) :
  (0 < n)%Z ->
  exists wrs lo hi,
    wrs = map (draw_index (linear_weights vals)) (draws (Z.to_nat n) w) /\
    In lo wrs /\ In hi wrs /\ Forall (fun x => (lo <= x <= hi)%nat) wrs /\
    illustration array_str vals n w
    = (inr (mkHistCall wrs
              (map (fun i => to_float lo - 0.5 + inject_Z (Z.of_nat i) * 1)
                   (seq 0 (hi - lo + 1)))),
       print (array_str (np_sort wrs)) (advance (Z.to_nat n) w)).
Proof.
  intros Hn. unfold illustration. cbv zeta.
  rewrite wrs_run by (apply linear_weights_nonneg || lia).
  set (wrs := map (draw_index (linear_weights vals)) (draws (Z.to_nat n) w)).
  assert (Hne : wrs <> []).
  { intros E. apply (f_equal (@length nat)) in E. unfold wrs in E.
    rewrite length_map, draws_length in E. simpl in E. lia. }
  destruct (np_min_max_spec wrs Hne) as (lo & hi & Hmin & Hmax & Hlo & Hhi & Hall).
  exists wrs, lo, hi. split; [reflexivity|].
  split; [exact Hlo|]. split; [exact Hhi|]. split; [exact Hall|].
  rewrite Hmin, Hmax. rewrite arange_step1_edges; [reflexivity|].
  rewrite Forall_forall in Hall. apply (Hall hi Hhi).
Qed.

End IllustrationFacts.

Lemma nth_error_map_seq {A : Type} (f : nat -> A) (m k : nat) :
  (k < m)%nat -> nth_error (map f (seq 0 m)) k = Some (f k).
Proof.
  intros Hk. rewrite nth_error_map.
  rewrite (nth_error_nth' (seq 0 m) 0%nat) by (rewrite length_seq; exact Hk).
  rewrite seq_nth by exact Hk. reflexivity.
Qed.

(** ** The properties of the sampler *)

(** C1 (as the code behaves).  For weights [1, 2, 3, 4] and the uniform draws
    [0.05, 0.65, 0.95], the cumulative sequence is [0.1, 0.3, 0.6, 1.0] and
    the selected indices are [0, 3, 3]: the draw 0.65 lies above 0.6 and is
    mapped to the last item.  The decimals stand for the doubles nearest to
    them. *)
Theorem wrs_scenario (w : World) :
  draws 3 w = [dbl 0.05; dbl 0.65; dbl 0.95] ->
  Forall2 float64_eq (cumulative_weights [1; 2; 3; 4])
          [Fin (dbl 0.1); Fin (dbl 0.3); Fin (dbl 0.6); Fin (dbl 1.0)] /\
  fst (weightedRandomSample 3 [1; 2; 3; 4] w)
  = Return (VSample [0; 3; 3]%nat [dbl 0.05; dbl 0.65; dbl 0.95]).
Proof.
  intros Hd. split.
  - vm_compute. repeat constructor.
  - rewrite wrs_run.
    + change (Z.to_nat 3) with 3%nat. rewrite Hd. cbn [fst].
      vm_compute. reflexivity.
    + repeat constructor; discriminate.
    + lia.
Qed.

Lemma wrs_scenario_witness :
  Forall2 float64_eq (cumulative_weights [1; 2; 3; 4])
          [Fin (dbl 0.1); Fin (dbl 0.3); Fin (dbl 0.6); Fin (dbl 1.0)] /\
  fst (weightedRandomSample 3 [1; 2; 3; 4] ex_w)
  = Return (VSample [0; 3; 3]%nat [dbl 0.05; dbl 0.65; dbl 0.95]).
Proof. apply (wrs_scenario ex_w). reflexivity. Defined.

(** C1 as written does not hold: on the stated draws the indices returned
    are not [0, 2, 3]. *)
Lemma scenario_indices_not_0_2_3 :
  draws 3 ex_w = [dbl 0.05; dbl 0.65; dbl 0.95] /\
  sample_indices (fst (weightedRandomSample 3 [1; 2; 3; 4] ex_w))
  <> Some [0; 2; 3]%nat.
Proof. split; [reflexivity|]. vm_compute. discriminate. Qed.

(** C2 (as the code behaves).  When some weight is negative the call prints
    its message and returns the float NaN to the caller; it raises nothing,
    and the generator is left where it was. *)
Theorem wrs_negative_weight (n : Z) (weights : list Q) (w : World) :
  Exists (fun x => x < 0) weights ->
  weightedRandomSample n weights w =
  (Return VNaN,
   mkWorld (rng_stream w) (rng_pos w)
           (stdout w ++ ["negative weight in weightedRandomSample"%string])).
Proof.
  intros Hneg. unfold weightedRandomSample.
  rewrite any_weights_lt_0_true by exact Hneg. reflexivity.
Qed.

Lemma wrs_negative_weight_witness :
  weightedRandomSample 5 [1; -2; 3] ex_w =
  (Return VNaN,
   mkWorld (rng_stream ex_w) (rng_pos ex_w)
           (stdout ex_w ++ ["negative weight in weightedRandomSample"%string])).
Proof.
  apply (wrs_negative_weight 5 [1; -2; 3] ex_w).
  apply Exists_cons_tl, Exists_cons_hd. reflexivity.
Defined.

(** C2 as written does not hold: with weights [1, -2, 3] the call returns NaN
    and raises no error. *)
Lemma negative_weight_returns_nan :
  fst (weightedRandomSample 5 [1; -2; 3] ex_w) = Return VNaN /\
  raised (fst (weightedRandomSample 5 [1; -2; 3] ex_w)) = false.
Proof. split; reflexivity. Qed.

(** C3 (the code at the failing input).  When every weight is zero and
    [n > 0], nothing is raised: the cumulative sequence is all NaN and every
    draw is answered with index 0. *)
Theorem wrs_all_zero_weights (n : Z) (weights : list Q) (w : World) :
  Forall (fun x => x == 0) weights -> (0 < n)%Z ->
  cumulative_weights weights = repeat NaN (length weights) /\
  fst (weightedRandomSample n weights w)
  = Return (VSample (repeat 0%nat (Z.to_nat n)) (draws (Z.to_nat n) w)).
Proof.
  intros Hz Hn. split.
  - apply cumulative_weights_all_zero. exact Hz.
  - rewrite wrs_run; [|apply all_zero_nonneg; exact Hz|lia].
    cbn [fst]. rewrite (map_const_repeat (draw_index weights) 0%nat).
    + now rewrite draws_length.
    + intros t. apply draw_index_all_zero. exact Hz.
Qed.

Lemma wrs_all_zero_weights_witness :
  cumulative_weights [0; 0; 0] = repeat NaN 3 /\
  fst (weightedRandomSample 5 [0; 0; 0] ex_w)
  = Return (VSample [0; 0; 0; 0; 0]%nat (draws 5 ex_w)).
Proof.
  apply (wrs_all_zero_weights 5 [0; 0; 0] ex_w).
  - repeat constructor.
  - reflexivity.
Defined.

(** C4 (as the code behaves).  With a negative count and no negative weight,
    the generator refuses the shape: the call raises NumPy's [ValueError]
    and no random value is consumed. *)
Theorem wrs_negative_count (n : Z) (weights : list Q) (w : World) :
  (n < 0)%Z -> Forall (fun x => 0 <= x) weights ->
  weightedRandomSample n weights w =
  (Raise (ValueError "negative dimensions are not allowed"), w).
Proof.
  intros Hn Hnn. unfold weightedRandomSample.
  rewrite any_weights_lt_0_false by exact Hnn.
  unfold random_sample. destruct (Z.ltb_spec n 0) as [_|Hge]; [|lia].
  reflexivity.
Qed.

Lemma wrs_negative_count_witness :
  weightedRandomSample (-1) [1; 2; 3] ex_w =
  (Raise (ValueError "negative dimensions are not allowed"), ex_w).
Proof.
  apply (wrs_negative_count (-1) [1; 2; 3] ex_w).
  - reflexivity.
  - repeat constructor; discriminate.
Defined.

(** C4 as written does not hold: with [n = -1] and weights [1, -2, 3] the
    negative-weight guard answers first, and the call returns NaN. *)
Lemma negative_count_returns_nan :
  fst (weightedRandomSample (-1) [1; -2; 3] ex_w) = Return VNaN /\
  raised (fst (weightedRandomSample (-1) [1; -2; 3] ex_w)) = false.
Proof. split; reflexivity. Qed.

(** C5 (the code at the failing input).  Eight items of weight 1.1 and the
    draw [1 - 2^-53], the largest double below 1: the running sum ends at
    8.799999999999999 while the pairwise total is 8.8, the last cumulative
    entry is [1 - 2^-52], below the draw, and the index returned is 8, one
    past the last item. *)
Theorem wrs_index_out_of_range :
  valid_weights w8 /\ Forall is_double w8 /\ length w8 = 8%nat /\
  (0 <= top < 1 /\ is_double top) /\
  last (cumulative_weights w8) NaN = Fin (1 - 2 ^ (-52)) /\
  weightedRandomSample 1 w8 (world_of [top])
  = (Return (VSample [8%nat] [top]), advance 1 (world_of [top])).
Proof.
  split; [valid_weights_tac; apply Exists_cons_hd; reflexivity|].
  split; [doubles_tac|]. split; [reflexivity|].
  split; [split; [split; vm_compute; [discriminate|reflexivity]|double_tac]|].
  split; vm_compute; reflexivity.
Qed.




(** C7 (as the code behaves).  For a valid input whose weights are doubles
    and uniform draws in [0, 1), an item of zero weight is returned only as
    index 0 for a draw equal to 0; when every draw is strictly positive,
    every returned index that is a position of the population has a strictly
    positive weight. *)
Theorem wrs_zero_weight_only_at_zero (n : Z) (weights : list Q) (w : World) :
  valid_weights weights -> Forall is_double weights -> (0 <= n)%Z ->
  Forall (fun t => 0 <= t < 1) (draws (Z.to_nat n) w) ->
  exists indices theSam,
    fst (weightedRandomSample n weights w) = Return (VSample indices theSam) /\
    theSam = draws (Z.to_nat n) w /\
    Forall2 (fun j t => forall x, nth_error weights j = Some x -> x == 0 ->
                                  j = 0%nat /\ t == 0)
            indices theSam /\
    (Forall (fun t => 0 < t) theSam ->
     Forall (fun j => forall x, nth_error weights j = Some x -> 0 < x) indices).
Proof.
  intros Hv Hdbl Hn Hd. pose proof Hv as (Hlen & Hnn & _).
  rewrite wrs_run by assumption. cbn [fst].
  eexists. eexists. split; [reflexivity|]. split; [reflexivity|].
  assert (H2 : Forall2 (fun j t => forall x, nth_error weights j = Some x ->
                                             x == 0 -> j = 0%nat /\ t == 0)
                       (map (draw_index weights) (draws (Z.to_nat n) w))
                       (draws (Z.to_nat n) w)).
  { rewrite Forall_forall in Hd. apply Forall2_map_l. intros t Ht x Hx Hx0.
    destruct (Hd t Ht) as [Ht0 Ht1].
    apply (draw_index_zero_weight weights t x); assumption. }
  split; [exact H2|].
  intros Hpos. eapply Forall2_Forall_l; [exact H2|exact Hpos|].
  intros j t Hjt Ht x Hx. cbv beta in *.
  assert (H0 : 0 <= x).
  { rewrite Forall_forall in Hnn. apply Hnn. eapply nth_error_In. exact Hx. }
  destruct (Qle_lt_or_eq 0 x H0) as [Hlt|Heq]; [exact Hlt|].
  exfalso. symmetry in Heq. destruct (Hjt x Hx Heq) as [_ Ht0]. lra.
Qed.

Lemma wrs_zero_weight_only_at_zero_witness :
  exists indices theSam,
    fst (weightedRandomSample 2 [0; 1; 0; 1] tie_w)
    = Return (VSample indices theSam) /\
    theSam = draws 2 tie_w /\
    Forall2 (fun j t => forall x, nth_error [0; 1; 0; 1] j = Some x -> x == 0 ->
                                  j = 0%nat /\ t == 0)
            indices theSam /\
    (Forall (fun t => 0 < t) theSam ->
     Forall (fun j => forall x, nth_error [0; 1; 0; 1] j = Some x -> 0 < x)
            indices).
Proof.
  apply (wrs_zero_weight_only_at_zero 2 [0; 1; 0; 1] tie_w).
  - valid_weights_tac. apply Exists_cons_tl, Exists_cons_hd. reflexivity.
  - doubles_tac.
  - lia.
  - in_unit_interval_tac.
Defined.

(** C7 as written does not hold: with weights [0, 1] and a draw equal to 0,
    which lies in [0, 1), the index returned is 0, an item of weight zero. *)
Lemma zero_weight_item_selected :
  valid_weights [0; 1] /\
  Forall (fun t => 0 <= t < 1) (draws 1 tie_w) /\
  sample_indices (fst (weightedRandomSample 1 [0; 1] tie_w)) = Some [0%nat] /\
  nth 0 [0; 1] 0 == 0.
Proof.
  split.
  - valid_weights_tac. apply Exists_cons_tl, Exists_cons_hd. reflexivity.
  - split; [in_unit_interval_tac|]. split; [vm_compute|]; reflexivity.
Qed.

(** C8 (as the code behaves).  For a valid sequence of fewer than 2^52
    weights that are doubles, whose running sum and whose total do not
    overflow, the cumulative-weight sequence has one finite entry per item,
    never decreases, and its last entry [c] is within
    [(2 N + 1) * 2^-53] of 1: [1 - tol <= c] and [c * (1 - tol) <= 1]. *)
Theorem cumulative_weights_monotone_near_one (weights : list Q) :
  valid_weights weights -> Forall is_double weights ->
  (Z.of_nat (length weights) < 2 ^ 52)%Z ->
  finite (sum weights) -> finite (last (cumsum weights) NaN) ->
  exists qs,
    cumulative_weights weights = map Fin qs /\
    length qs = length weights /\
    nondecreasing qs /\
    1 - tol (length weights) <= last qs 0 /\
    last qs 0 * (1 - tol (length weights)) <= 1.
Proof.
  intros Hv Hd Hlen [s Hs] [c Hc]. pose proof Hv as (_ & Hnn & _).
  pose proof (cumulative_weights_finite weights Hv Hd Hlen s c Hs Hc) as Hf.
  exists (map fvalue (cumulative_weights weights)).
  split; [apply map_Fin_fvalue; exact Hf|].
  split; [now rewrite length_map, cumulative_weights_length|].
  split; [apply fsorted_values;
          [exact Hf|apply cumulative_weights_sorted; exact Hnn]|].
  destruct (last_cumulative_weight weights Hv Hd Hlen s c Hs Hc)
    as (x & Ex & Lx & Ux).
  assert (El : last (map fvalue (cumulative_weights weights)) 0 = x).
  { rewrite last_as_nth, length_map.
    change (nth (length (cumulative_weights weights) - 1)
                (map fvalue (cumulative_weights weights)) (fvalue NaN) = x).
    rewrite map_nth, <- last_as_nth, Ex. reflexivity. }
  rewrite El. now split.
Qed.

Lemma cumulative_weights_monotone_near_one_witness :
  exists qs,
    cumulative_weights [1; 2; 3; 4] = map Fin qs /\
    length qs = 4%nat /\
    nondecreasing qs /\
    1 - tol 4 <= last qs 0 /\
    last qs 0 * (1 - tol 4) <= 1.
Proof.
  apply (cumulative_weights_monotone_near_one [1; 2; 3; 4]).
  - valid_weights_tac. apply Exists_cons_hd. reflexivity.
  - doubles_tac.
  - reflexivity.
  - eexists. vm_compute. reflexivity.
  - eexists. vm_compute. reflexivity.
Defined.

(** C8 as written does not hold: two weights of 2^1023 are valid doubles,
    their sum overflows, and the cumulative-weight sequence is [0, nan]: it
    does not end with 1, and not with a number at all. *)
Lemma overflowing_weights_end_in_nan :
  valid_weights w_huge /\ Forall is_double w_huge /\
  cumulative_weights w_huge = [Fin 0; NaN] /\
  ~ exists qs, cumulative_weights w_huge = map Fin qs.
Proof.
  split; [valid_weights_tac; apply Exists_cons_hd; reflexivity|].
  split; [doubles_tac|].
  assert (E : cumulative_weights w_huge = [Fin 0; NaN])
    by (vm_compute; reflexivity).
  split; [exact E|]. rewrite E. intros [qs H].
  destruct qs as [|a [|b qs]]; discriminate H.
Qed.

(** C9.  With [n = 0] and a valid population the call succeeds and returns
    two empty sequences; the generator does not advance and nothing is
    printed. *)
Theorem wrs_zero_draws (weights : list Q) (w : World) :
  valid_weights weights ->
  fst (weightedRandomSample 0 weights w) = Return (VSample [] []) /\
  rng_pos (snd (weightedRandomSample 0 weights w)) = rng_pos w /\
  stdout (snd (weightedRandomSample 0 weights w)) = stdout w.
Proof.
  intros (_ & Hnn & _). rewrite wrs_run by (assumption || lia). simpl.
  split; [reflexivity|]. split; [lia|reflexivity].
Qed.

Lemma wrs_zero_draws_witness :
  fst (weightedRandomSample 0 [1; 2; 3] ex_w) = Return (VSample [] []) /\
  rng_pos (snd (weightedRandomSample 0 [1; 2; 3] ex_w)) = rng_pos ex_w /\
  stdout (snd (weightedRandomSample 0 [1; 2; 3] ex_w)) = stdout ex_w.
Proof.
  apply (wrs_zero_draws [1; 2; 3] ex_w).
  valid_weights_tac. apply Exists_cons_hd. reflexivity.
Defined.

(** C10.  For a valid population, whenever a draw equals one or more entries
    of the cumulative-weight sequence, the index returned is the smallest
    position holding that value; in particular, when the first weight is 0
    and a draw is exactly 0, index 0, an item of weight zero, is returned. *)
Theorem wrs_tie_lower_bound (n : Z) (weights : list Q) (w : World) :
  valid_weights weights -> (0 <= n)%Z ->
  exists indices theSam,
    fst (weightedRandomSample n weights w) = Return (VSample indices theSam) /\
    theSam = draws (Z.to_nat n) w /\
    Forall2 (smallest_tie (cumulative_weights weights)) indices theSam /\
    (nth 0 weights 0 == 0 ->
     Forall2 (fun i t => t == 0 -> i = 0%nat) indices theSam).
Proof.
  intros Hv Hn. pose proof Hv as (Hlen & Hnn & _).
  rewrite wrs_run by assumption. cbn [fst].
  eexists. eexists. split; [reflexivity|]. split; [reflexivity|]. split.
  - apply Forall2_map_l. intros t _. apply draw_index_smallest_tie. exact Hnn.
  - intros Hw0. apply Forall2_map_l. intros t _ Ht.
    destruct (draw_index_spec weights Hnn t) as (_ & Hbelow & _).
    destruct (draw_index weights t) as [|r]; [reflexivity|]. exfalso.
    specialize (Hbelow 0%nat (Nat.lt_0_succ r)). unfold before_key in Hbelow.
    rewrite cumulative_weights_nth, cumsum_nth_0 in Hbelow by lia.
    unfold cast in Hbelow. rewrite (round53_zero _ Hw0) in Hbelow.
    destruct (divide_zero_num (sum weights)) as [E|E].
    + rewrite E in Hbelow. discriminate Hbelow.
    + rewrite (less_comp _ (Fin 0) (Fin t) (Fin 0) E Ht) in Hbelow.
      discriminate Hbelow.
Qed.

Lemma wrs_tie_lower_bound_witness :
  exists indices theSam,
    fst (weightedRandomSample 2 [0; 1; 0; 1] tie_w)
    = Return (VSample indices theSam) /\
    theSam = draws 2 tie_w /\
    Forall2 (smallest_tie (cumulative_weights [0; 1; 0; 1])) indices theSam /\
    (nth 0 [0; 1; 0; 1] 0 == 0 ->
     Forall2 (fun i t => t == 0 -> i = 0%nat) indices theSam).
Proof.
  apply (wrs_tie_lower_bound 2 [0; 1; 0; 1] tie_w).
  - valid_weights_tac. apply Exists_cons_tl, Exists_cons_hd. reflexivity.
  - lia.
Defined.

(** ** Further theorems about the sampler *)

(** X3.  The selection is monotone in the draw: within one call on a valid
    population, a draw that is at most another draw gets an index that is at
    most the other's index. *)
Theorem wrs_indices_monotone (n : Z) (weights : list Q) (w : World) :
  valid_weights weights -> (0 <= n)%Z ->
  exists indices theSam,
    fst (weightedRandomSample n weights w) = Return (VSample indices theSam) /\
    forall a b ja jb ta tb,
      nth_error indices a = Some ja -> nth_error theSam a = Some ta ->
      nth_error indices b = Some jb -> nth_error theSam b = Some tb ->
      ta <= tb -> (ja <= jb)%nat.
Proof.
  intros Hv Hn. pose proof Hv as (Hlen & Hnn & _).
  rewrite wrs_run by assumption. simpl.
  eexists. eexists. split; [reflexivity|].
  intros a b ja jb ta tb Hja Hta Hjb Htb Hle.
  rewrite nth_error_map, Hta in Hja. rewrite nth_error_map, Htb in Hjb.
  simpl in Hja, Hjb. injection Hja as <-. injection Hjb as <-.
  apply draw_index_monotone; assumption.
Qed.

Lemma wrs_indices_monotone_witness :
  exists indices theSam,
    fst (weightedRandomSample 3 [1; 2; 3; 4] ex_w)
    = Return (VSample indices theSam) /\
    forall a b ja jb ta tb,
      nth_error indices a = Some ja -> nth_error theSam a = Some ta ->
      nth_error indices b = Some jb -> nth_error theSam b = Some tb ->
      ta <= tb -> (ja <= jb)%nat.
Proof.
  apply (wrs_indices_monotone 3 [1; 2; 3; 4] ex_w).
  - valid_weights_tac. apply Exists_cons_hd. reflexivity.
  - lia.
Defined.

(** X5.  Calls compose: with no negative weight, a call for [n1] draws
    followed by a call for [n2] draws returns, concatenated, the indices and
    the uniform values of a single call for [n1 + n2] draws, and leaves the
    generator in the same state. *)
Theorem wrs_split_calls (n1 n2 : Z) (weights : list Q) (w : World) :
  Forall (fun x => 0 <= x) weights -> (0 <= n1)%Z -> (0 <= n2)%Z ->
  exists i1 s1 i2 s2 w1 w2,
    weightedRandomSample n1 weights w = (Return (VSample i1 s1), w1) /\
    weightedRandomSample n2 weights w1 = (Return (VSample i2 s2), w2) /\
    weightedRandomSample (n1 + n2) weights w
    = (Return (VSample (i1 ++ i2) (s1 ++ s2)), w2).
Proof.
  intros Hnn H1 H2.
  do 6 eexists. split; [apply wrs_run; assumption|].
  split; [apply wrs_run; assumption|].
  rewrite wrs_run by (assumption || lia).
  rewrite Z2Nat.inj_add by assumption.
  rewrite draws_app, map_app. unfold advance. simpl.
  now rewrite Nat.add_assoc.
Qed.

Lemma wrs_split_calls_witness :
  exists i1 s1 i2 s2 w1 w2,
    weightedRandomSample 1 [1; 2; 3; 4] ex_w = (Return (VSample i1 s1), w1) /\
    weightedRandomSample 2 [1; 2; 3; 4] w1 = (Return (VSample i2 s2), w2) /\
    weightedRandomSample (1 + 2) [1; 2; 3; 4] ex_w
    = (Return (VSample (i1 ++ i2) (s1 ++ s2)), w2).
Proof.
  apply (wrs_split_calls 1 2 [1; 2; 3; 4] ex_w).
  - repeat constructor; discriminate.
  - lia.
  - lia.
Defined.

(** X7.  An empty population is not refused: with no weight at all and
    [n >= 0], the call draws [n] values and answers each of them with index
    0, which is no position of the empty population. *)
Theorem wrs_empty_population (n : Z) (w : World) :
  (0 <= n)%Z ->
  weightedRandomSample n [] w
  = (Return (VSample (repeat 0%nat (Z.to_nat n)) (draws (Z.to_nat n) w)),
     advance (Z.to_nat n) w).
Proof.
  intros Hn. rewrite wrs_run by (assumption || constructor).
  rewrite (map_const_repeat (draw_index []) 0%nat) by reflexivity.
  now rewrite draws_length.
Qed.

Lemma wrs_empty_population_witness :
  weightedRandomSample 3 [] ex_w
  = (Return (VSample [0; 0; 0]%nat (draws 3 ex_w)), advance 3 ex_w).
Proof. apply (wrs_empty_population 3 ex_w). lia. Defined.

(** X8.  For a valid population the index returned for a draw never exceeds
    [N], and it is [N], one past the last item, exactly when the last
    cumulative weight sorts strictly before the draw. *)
Theorem wrs_index_past_end (n : Z) (weights : list Q) (w : World) :
  valid_weights weights -> (0 <= n)%Z ->
  exists indices theSam,
    fst (weightedRandomSample n weights w) = Return (VSample indices theSam) /\
    theSam = draws (Z.to_nat n) w /\
    Forall2 (fun j t =>
               (j <= length weights)%nat /\
               (j = length weights <->
                less (last (cumulative_weights weights) NaN) (Fin t) = true))
            indices theSam.
Proof.
  intros Hv Hn. pose proof Hv as (Hlen & Hnn & _).
  rewrite wrs_run by assumption. cbn [fst].
  eexists. eexists. split; [reflexivity|]. split; [reflexivity|].
  apply Forall2_map_l. intros t _. split.
  - apply (draw_index_spec weights Hnn t).
  - apply draw_index_past_end. exact Hv.
Qed.

Lemma wrs_index_past_end_witness :
  exists indices theSam,
    fst (weightedRandomSample 3 [1; 2; 3; 4] ex_w)
    = Return (VSample indices theSam) /\
    theSam = draws 3 ex_w /\
    Forall2 (fun j t =>
               (j <= 4)%nat /\
               (j = 4%nat <->
                less (last (cumulative_weights [1; 2; 3; 4]) NaN) (Fin t)
                = true))
            indices theSam.
Proof.
  apply (wrs_index_past_end 3 [1; 2; 3; 4] ex_w).
  - valid_weights_tac. apply Exists_cons_hd. reflexivity.
  - lia.
Defined.

(** X13.  For a valid sequence of fewer than 2^52 weights that are doubles,
    whose running sum and whose total do not overflow, every draw that is at
    most [1 - (2 N + 1) * 2^-53] is given the index of one of the [N]
    items. *)
Theorem wrs_index_below_tolerance (n : Z) (weights : list Q) (w : World) :
  valid_weights weights -> Forall is_double weights ->
  (Z.of_nat (length weights) < 2 ^ 52)%Z ->
  finite (sum weights) -> finite (last (cumsum weights) NaN) ->
  (0 <= n)%Z ->
  exists indices theSam,
    fst (weightedRandomSample n weights w) = Return (VSample indices theSam) /\
    theSam = draws (Z.to_nat n) w /\
    Forall2 (fun j t => t <= 1 - tol (length weights) ->
                        (j < length weights)%nat)
            indices theSam.
Proof.
  intros Hv Hd Hlen Hs Hc Hn. pose proof Hv as (_ & Hnn & _).
  rewrite wrs_run by assumption. cbn [fst].
  eexists. eexists. split; [reflexivity|]. split; [reflexivity|].
  apply Forall2_map_l. intros t _ Ht.
  apply draw_index_below_tolerance; assumption.
Qed.

Lemma wrs_index_below_tolerance_witness :
  exists indices theSam,
    fst (weightedRandomSample 3 [1; 2; 3; 4] ex_w)
    = Return (VSample indices theSam) /\
    theSam = draws 3 ex_w /\
    Forall2 (fun j t => t <= 1 - tol 4 -> (j < 4)%nat) indices theSam.
Proof.
  apply (wrs_index_below_tolerance 3 [1; 2; 3; 4] ex_w).
  - valid_weights_tac. apply Exists_cons_hd. reflexivity.
  - doubles_tac.
  - reflexivity.
  - eexists. vm_compute. reflexivity.
  - eexists. vm_compute. reflexivity.
  - lia.
Defined.

(** X14.  Whole-number weights whose sum is below 2^53 are added without
    rounding: for a valid population of them the last cumulative weight is
    exactly 1, and every draw in [0, 1) is given the index of one of the [N]
    items. *)
Theorem wrs_integer_weights_in_range (n : Z) (weights : list Q) (w : World) :
  valid_weights weights -> Forall is_integer weights ->
  total weights < 2 ^ 53 -> (0 <= n)%Z ->
  Forall (fun t => 0 <= t < 1) (draws (Z.to_nat n) w) ->
  last (cumulative_weights weights) NaN = Fin 1 /\
  exists indices theSam,
    fst (weightedRandomSample n weights w) = Return (VSample indices theSam) /\
    theSam = draws (Z.to_nat n) w /\
    Forall (fun j => (j < length weights)%nat) indices.
Proof.
  intros Hv Hi Ht Hn Hd. pose proof Hv as (_ & Hnn & _).
  split; [apply integer_weights_last; assumption|].
  rewrite wrs_run by assumption. cbn [fst].
  eexists. eexists. split; [reflexivity|]. split; [reflexivity|].
  apply Forall_map. eapply Forall_impl; [|exact Hd].
  intros t [_ Ht1]. apply draw_index_integer_weights; try assumption. lra.
Qed.

Lemma wrs_integer_weights_in_range_witness :
  last (cumulative_weights [1; 2; 3; 4]) NaN = Fin 1 /\
  exists indices theSam,
    fst (weightedRandomSample 3 [1; 2; 3; 4] ex_w)
    = Return (VSample indices theSam) /\
    theSam = draws 3 ex_w /\
    Forall (fun j => (j < 4)%nat) indices.
Proof.
  apply (wrs_integer_weights_in_range 3 [1; 2; 3; 4] ex_w).
  - valid_weights_tac. apply Exists_cons_hd. reflexivity.
  - repeat constructor; [now exists 1%Z|now exists 2%Z|now exists 3%Z
                         |now exists 4%Z].
  - vm_compute. reflexivity.
  - lia.
  - in_unit_interval_tac.
Defined.

(** X15.  Below eight items the total is added in the order of the running
    sum: for a valid population of fewer than eight doubles the last
    cumulative weight is exactly 1, or [nan] when the sum overflows, and
    every draw in [0, 1) is given the index of one of the [N] items. *)
Theorem wrs_few_weights_in_range (n : Z) (weights : list Q) (w : World) :
  valid_weights weights -> Forall is_double weights ->
  (length weights < 8)%nat -> (0 <= n)%Z ->
  Forall (fun t => 0 <= t < 1) (draws (Z.to_nat n) w) ->
  (last (cumulative_weights weights) NaN = Fin 1 \/
   last (cumulative_weights weights) NaN = NaN) /\
  exists indices theSam,
    fst (weightedRandomSample n weights w) = Return (VSample indices theSam) /\
    theSam = draws (Z.to_nat n) w /\
    Forall (fun j => (j < length weights)%nat) indices.
Proof.
  intros Hv Hdb Hlen Hn Hd. pose proof Hv as (_ & Hnn & _).
  split; [apply few_weights_last; assumption|].
  rewrite wrs_run by assumption. cbn [fst].
  eexists. eexists. split; [reflexivity|]. split; [reflexivity|].
  apply Forall_map. eapply Forall_impl; [|exact Hd].
  intros t [_ Ht1]. apply draw_index_few_weights; try assumption. lra.
Qed.

Lemma wrs_few_weights_in_range_witness :
  (last (cumulative_weights (repeat (dbl 1.1) 7)) NaN = Fin 1 \/
   last (cumulative_weights (repeat (dbl 1.1) 7)) NaN = NaN) /\
  exists indices theSam,
    fst (weightedRandomSample 1 (repeat (dbl 1.1) 7) (world_of [top]))
    = Return (VSample indices theSam) /\
    theSam = draws 1 (world_of [top]) /\
    Forall (fun j => (j < length (repeat (dbl 1.1) 7))%nat) indices.
Proof.
  apply (wrs_few_weights_in_range 1 (repeat (dbl 1.1) 7) (world_of [top])).
  - valid_weights_tac. apply Exists_cons_hd. reflexivity.
  - doubles_tac.
  - vm_compute. lia.
  - lia.
  - in_unit_interval_tac.
Defined.

(** ** Theorems about the illustration cell *)

(** X9.  With [n > 0] the cell runs to its [hist] call whatever [vals] is:
    it draws [n] indices, prints their sorted array once, and hands over bin
    edges that run from the smallest sampled index to the largest one, one
    edge per integer, each half a unit below it. *)
Theorem illustration_bins (array_str : list nat -> string) (vals n : Z)
        (w : World) :
  (0 < n)%Z ->
  exists wrs bins lo hi,
    illustration array_str vals n w
    = (inr (mkHistCall wrs bins),
       print (array_str (np_sort wrs)) (advance (Z.to_nat n) w)) /\
    length wrs = Z.to_nat n /\
    In lo wrs /\ In hi wrs /\ Forall (fun x => (lo <= x <= hi)%nat) wrs /\
    length bins = (hi - lo + 1)%nat /\
    forall k, (k <= hi - lo)%nat ->
              exists e, nth_error bins k = Some e /\
                        e == to_float (lo + k) - 0.5.
Proof.
  intros Hn.
  destruct (illustration_run array_str vals n w Hn)
    as (wrs & lo & hi & Hw & Hlo & Hhi & Hall & Hrun).
  exists wrs. eexists. exists lo, hi. split; [exact Hrun|].
  split; [rewrite Hw; now rewrite length_map, draws_length|].
  split; [exact Hlo|]. split; [exact Hhi|]. split; [exact Hall|].
  split; [now rewrite length_map, length_seq|].
  intros k Hk. eexists. split.
  - apply nth_error_map_seq. lia.
  - apply edge_value.
Qed.

Lemma illustration_bins_witness :
  exists wrs bins lo hi,
    illustration (fun _ => "sorted"%string) 10 4 cell_w
    = (inr (mkHistCall wrs bins),
       print ((fun _ => "sorted"%string) (np_sort wrs)) (advance 4 cell_w)) /\
    length wrs = 4%nat /\
    In lo wrs /\ In hi wrs /\ Forall (fun x => (lo <= x <= hi)%nat) wrs /\
    length bins = (hi - lo + 1)%nat /\
    forall k, (k <= hi - lo)%nat ->
              exists e, nth_error bins k = Some e /\
                        e == to_float (lo + k) - 0.5.
Proof.
  apply (illustration_bins (fun _ => "sorted"%string) 10 4 cell_w). lia.
Defined.

(** X10.  The bins stop short of the largest sampled index: with [n > 0],
    every edge handed to [hist] is below the largest index drawn, so the
    draws of that index lie beyond the last bin, while every smaller sampled
    index lies in a bin of width one between two consecutive edges. *)
Theorem illustration_max_unbinned (array_str : list nat -> string)
        (vals n : Z) (w : World) :
  (0 < n)%Z ->
  exists wrs bins hi,
    fst (illustration array_str vals n w) = inr (mkHistCall wrs bins) /\
    In hi wrs /\ Forall (fun x => (x <= hi)%nat) wrs /\
    Forall (fun e => e < to_float hi) bins /\
    Forall (fun x => (x < hi)%nat ->
                     exists k e1 e2,
                       nth_error bins k = Some e1 /\
                       nth_error bins (S k) = Some e2 /\
                       e1 <= to_float x /\ to_float x < e2) wrs.
Proof.
  intros Hn.
  destruct (illustration_run array_str vals n w Hn)
    as (wrs & lo & hi & Hw & Hlo & Hhi & Hall & Hrun).
  exists wrs. eexists. exists hi. rewrite Hrun. split; [reflexivity|].
  split; [exact Hhi|].
  assert (Hlh : (lo <= hi)%nat).
  { rewrite Forall_forall in Hall. apply (Hall hi Hhi). }
  split; [eapply Forall_impl; [|exact Hall]; intros x Hx; simpl in Hx; lia|].
  split.
  - apply Forall_map, Forall_forall. intros i Hi. apply in_seq in Hi.
    rewrite edge_value.
    apply Qlt_le_trans with (to_float (lo + i)).
    + rewrite <- (Qplus_0_r (to_float (lo + i))) at 2.
      unfold Qminus. apply Qplus_lt_r. reflexivity.
    + apply to_float_le. lia.
  - eapply Forall_impl; [|exact Hall]. intros x Hx Hlt. simpl in Hx.
    exists (x - lo)%nat. eexists. eexists.
    split; [apply nth_error_map_seq; lia|].
    split; [apply nth_error_map_seq; lia|].
    rewrite !edge_value.
    replace (lo + (x - lo))%nat with x by lia.
    replace (lo + S (x - lo))%nat with (S x) by lia.
    split.
    + rewrite <- (Qplus_0_r (to_float x)) at 2.
      unfold Qminus. apply Qplus_le_r. discriminate.
    + unfold to_float. rewrite Nat2Z.inj_succ. unfold Z.succ.
      rewrite inject_Z_plus. change (inject_Z 1) with 1.
      rewrite <- (Qplus_0_r (inject_Z (Z.of_nat x))) at 1.
      unfold Qminus. rewrite <- Qplus_assoc. apply Qplus_lt_r. reflexivity.
Qed.

Lemma illustration_max_unbinned_witness :
  exists wrs bins hi,
    fst (illustration (fun _ => "sorted"%string) 10 4 cell_w)
    = inr (mkHistCall wrs bins) /\
    In hi wrs /\ Forall (fun x => (x <= hi)%nat) wrs /\
    Forall (fun e => e < to_float hi) bins /\
    Forall (fun x => (x < hi)%nat ->
                     exists k e1 e2,
                       nth_error bins k = Some e1 /\
                       nth_error bins (S k) = Some e2 /\
                       e1 <= to_float x /\ to_float x < e2) wrs.
Proof.
  apply (illustration_max_unbinned (fun _ => "sorted"%string) 10 4 cell_w). lia.
Defined.

(** X11.  Without a positive [n] the cell stops with a [ValueError]: for
    [n < 0] the one of the generator, before anything is printed; for
    [n = 0] the one of [np.min] on the empty index array, after the empty
    array has been printed.  No random value is consumed in either case. *)
Theorem illustration_no_draws (array_str : list nat -> string) (vals n : Z)
        (w : World) :
  (n <= 0)%Z ->
  fst (illustration array_str vals n w)
  = inl (Uncaught (ValueError
       (if (n <? 0)%Z then "negative dimensions are not allowed"
        else "zero-size array to reduction operation minimum which has no identity")))
  /\ stdout (snd (illustration array_str vals n w))
     = (if (n <? 0)%Z then stdout w else stdout w ++ [array_str []])
  /\ rng_pos (snd (illustration array_str vals n w)) = rng_pos w.
Proof.
  intros Hn. unfold illustration. cbv zeta.
  destruct (Z.ltb_spec n 0) as [Hneg|Hge].
  - unfold weightedRandomSample.
    rewrite any_weights_lt_0_false by apply linear_weights_nonneg.
    unfold random_sample. destruct (Z.ltb_spec n 0) as [_|]; [|lia].
    simpl. repeat split.
  - assert (n = 0)%Z by lia. subst n.
    rewrite wrs_run by (apply linear_weights_nonneg || lia).
    simpl. repeat split. lia.
Qed.

Lemma illustration_no_draws_witness :
  fst (illustration (fun _ => "sorted"%string) 10 0 cell_w)
  = inl (Uncaught (ValueError
       (if (0 <? 0)%Z then "negative dimensions are not allowed"
        else "zero-size array to reduction operation minimum which has no identity")))
  /\ stdout (snd (illustration (fun _ => "sorted"%string) 10 0 cell_w))
     = (if (0 <? 0)%Z then stdout cell_w
        else stdout cell_w ++ [(fun _ => "sorted"%string) (@nil nat)])
  /\ rng_pos (snd (illustration (fun _ => "sorted"%string) 10 0 cell_w))
     = rng_pos cell_w.
Proof.
  apply (illustration_no_draws (fun _ => "sorted"%string) 10 0 cell_w). lia.
Defined.

(** X12.  With [vals >= 1] linearly increasing weights whose sum
    [vals * (vals + 1) / 2] is below 2^53, [n > 0] and draws in [0, 1),
    every index the cell hands to [hist] is one of the [vals] items: it is
    below [vals]. *)
Theorem illustration_indices_in_range (array_str : list nat -> string)
        (vals n : Z) (w : World) :
  (1 <= vals)%Z -> (vals * (vals + 1) < 2 ^ 54)%Z -> (0 < n)%Z ->
  Forall (fun t => 0 <= t < 1) (draws (Z.to_nat n) w) ->
  exists wrs bins,
    fst (illustration array_str vals n w) = inr (mkHistCall wrs bins) /\
    length wrs = Z.to_nat n /\
    Forall (fun x => (Z.of_nat x < vals)%Z) wrs.
Proof.
  intros Hv Hb Hn Hd.
  destruct (illustration_run array_str vals n w Hn)
    as (wrs & lo & hi & Hw & _ & _ & _ & Hrun).
  exists wrs. eexists. rewrite Hrun. split; [reflexivity|].
  rewrite Hw. split; [now rewrite length_map, draws_length|].
  apply Forall_map. eapply Forall_impl; [|exact Hd].
  intros t [_ Ht]. cbv beta.
  assert (Hlt : (draw_index (linear_weights vals) t
                 < length (linear_weights vals))%nat).
  { apply draw_index_integer_weights.
    - apply linear_weights_valid. exact Hv.
    - apply linear_weights_integers.
    - apply linear_weights_total_small; [lia|exact Hb].
    - lra. }
  rewrite linear_weights_length in Hlt. lia.
Qed.

Lemma illustration_indices_in_range_witness :
  exists wrs bins,
    fst (illustration (fun _ => "sorted"%string) 10 4 cell_w)
    = inr (mkHistCall wrs bins) /\
    length wrs = 4%nat /\
    Forall (fun x => (Z.of_nat x < 10)%Z) wrs.
Proof.
  apply (illustration_indices_in_range (fun _ => "sorted"%string) 10 4 cell_w).
  - lia.
  - reflexivity.
  - lia.
  - in_unit_interval_tac.
Defined.
